(** * Spektral documentation generator ([docs/autogen.py])

    A shallow embedding of the script that renders the Spektral API pages:
    signature extraction, docstring reformatting and the page loop that
    writes the Markdown sources.

    Python [str] values are lists of characters; integers that may be
    negative ([str.find], slice bounds) are in [Z]. *)

From Stdlib Require Import Ascii String ZArith DecimalString.
From stdpp Require Import base tactics option list sorting gmap strings.

Local Open Scope Z_scope.
Local Open Scope list_scope.

(** ** Python strings *)

Abbreviation str := (list ascii).

Definition lit (s : string) : str := list_ascii_of_string s.
Global Arguments lit : simpl never.

Definition chr_eqb (a b : ascii) : bool := bool_decide (a = b).

(** [s.startswith(p)] *)
Fixpoint starts_with (p s : str) : bool :=
  match p, s with
  | [], _ => true
  | _ :: _, [] => false
  | c :: p', d :: s' => chr_eqb c d && starts_with p' s'
  end.

(** [s.find(sub)]: the lowest index where [sub] occurs, [-1] when absent. *)
Fixpoint str_find (sub s : str) : Z :=
  if starts_with sub s then 0
  else match s with
       | [] => -1
       | _ :: s' => let r := str_find sub s' in if r <? 0 then -1 else r + 1
       end.

(** [sub in s] *)
Definition contains (sub s : str) : bool := 0 <=? str_find sub s.

(** Python slice bounds: a negative index counts from the end, and every
    index is clamped to the sequence. *)
Definition norm_index (len : nat) (i : Z) : nat :=
  if i <? 0 then Z.to_nat (Z.max 0 (Z.of_nat len + i))
  else Nat.min len (Z.to_nat i).

(** [l[lo:hi]], with [None] for an omitted bound. *)
Definition slice {A} (lo hi : option Z) (l : list A) : list A :=
  let n := length l in
  let a := match lo with None => 0%nat | Some i => norm_index n i end in
  let b := match hi with None => n | Some j => norm_index n j end in
  take (b - a) (drop a l).

(** [s.find(sub, start)] for a non-negative [start]; the result indexes [s]. *)
Definition str_find_from (sub s : str) (start : nat) : Z :=
  if (length s <? start)%nat then -1
  else let r := str_find sub (drop start s) in
       if r <? 0 then -1 else r + Z.of_nat start.

(** Left-to-right scan shared by [str.replace] and [re.sub]: [m] tells, for
    the text that starts at the current position, how many characters a match
    consumes and what replaces them.  [skip] counts the characters of the
    current match that remain to be dropped; [count] bounds the number of
    replacements ([None]: unbounded). *)
Fixpoint gsub_aux (m : str → option (nat * str)) (count : option nat)
    (skip : nat) (s : str) : str :=
  match s with
  | [] => []
  | c :: s' =>
    match skip with
    | S k => gsub_aux m count k s'
    | O =>
      match count with
      | Some O => s
      | _ =>
        match m s with
        | Some (n, r) => r ++ gsub_aux m (pred <$> count) (Nat.pred n) s'
        | None => c :: gsub_aux m count O s'
        end
      end
    end
  end.

Definition gsub (m : str → option (nat * str)) (count : option nat) (s : str) : str :=
  gsub_aux m count O s.

Definition literal_match (old new : str) (s : str) : option (nat * str) :=
  if starts_with old s then Some (length old, new) else None.

(** [new.join(s)] over the characters of [s] with [new] at both ends, which is
    what [s.replace("", new)] returns. *)
Fixpoint interleave (new s : str) : str :=
  match s with
  | [] => new
  | c :: s' => new ++ c :: interleave new s'
  end.

(** [s.replace(old, new)] *)
Definition str_replace (old new s : str) : str :=
  match old with
  | [] => interleave new s
  | _ :: _ => gsub (literal_match old new) None s
  end.

(** [s.replace(old, new, 1)] *)
Definition str_replace_first (old new s : str) : str :=
  match old with
  | [] => new ++ s
  | _ :: _ => gsub (literal_match old new) (Some 1%nat) s
  end.

Definition cons_head (c : ascii) (ls : list str) : list str :=
  match ls with
  | [] => [[c]]
  | h :: t => (c :: h) :: t
  end.

(** [s.split(sep)] for a one-character separator. *)
Fixpoint str_split (sep : ascii) (s : str) : list str :=
  match s with
  | [] => [[]]
  | c :: s' => if chr_eqb c sep then [] :: str_split sep s' else cons_head c (str_split sep s')
  end.

(** [sep.join(ls)] *)
Fixpoint str_join (sep : str) (ls : list str) : str :=
  match ls with
  | [] => []
  | [x] => x
  | x :: rest => x ++ sep ++ str_join sep rest
  end.

Definition nl : ascii := "010"%char.
Definition sp : ascii := " "%char.

Definition is_digit (c : ascii) : bool :=
  let n := nat_of_ascii c in (48 <=? n)%nat && (n <=? 57)%nat.

(** ** Signatures *)

(** [re.split(r"\.(?!\d)", s)]: cut at every dot that is not followed by a
    decimal digit. *)
Definition dot_splits (s' : str) : bool :=
  match s' with
  | d :: _ => negb (is_digit d)
  | [] => true
  end.

Fixpoint re_split_dot (s : str) : list str :=
  match s with
  | [] => [[]]
  | c :: s' =>
    if chr_eqb c "."%char && dot_splits s' then [] :: re_split_dot s'
    else cons_head c (re_split_dot s')
  end.

Definition str_eqb (a b : str) : bool := bool_decide (a = b).

Definition post_process_signature (signature : str) : str :=
  let parts := re_split_dot signature in
  if (4 <=? length parts)%nat then
    let signature1 :=
      if str_eqb (default [] (parts !! 1%nat)) (lit "layers")
      then lit "spektral.layers." ++ str_join (lit ".") (drop 3 parts)
      else signature in
    if str_eqb (default [] (parts !! 1%nat)) (lit "utils")
    then lit "spektral.utils." ++ str_join (lit ".") (drop 3 parts)
    else signature1
  else signature.

Definition clean_module_name (name : str) : str := name.

(** ** Exceptions *)

Inductive exn :=
  | TypeError
  | AttributeError
  | ValueError
  | KeyError
  | IndexError
  | OSError
  | AssertionError (msg : str).

(** The outcome of a computation: a value, an exception, or [OutOfFuel] when
    a loop of the model was cut before it finished. *)
Inductive result (A : Type) :=
  | Ok (a : A)
  | Raise (e : exn)
  | OutOfFuel.
Arguments Ok {A} a.
Arguments Raise {A} e.
Arguments OutOfFuel {A}.

Global Instance result_ret : MRet result := λ A a, Ok a.
Global Instance result_bind : MBind result := λ A B f r,
  match r with
  | Ok a => f a
  | Raise e => Raise e
  | OutOfFuel => OutOfFuel
  end.
Global Instance result_fmap : FMap result := λ A B f r,
  match r with
  | Ok a => Ok (f a)
  | Raise e => Raise e
  | OutOfFuel => OutOfFuel
  end.

(** ** Introspected callables *)

(** A default value: [isinstance(v, str)] or any other object, kept as the
    text that [str(v)] returns. *)
Inductive pyval :=
  | VStr (s : str)
  | VOther (text : str).

(** [inspect.ArgSpec] *)
Record ArgSpec := {
  as_args : list str;
  as_varargs : option str;
  as_keywords : option str;
  as_defaults : option (list pyval)
}.

(** [inspect.FullArgSpec]; [fa_kwonlydefaults] is [None] or a dict. *)
Record FullArgSpec := {
  fa_args : list str;
  fa_varargs : option str;
  fa_varkw : option str;
  fa_defaults : option (list pyval);
  fa_kwonlyargs : list str;
  fa_kwonlydefaults : option (list (str * pyval))
}.

Inductive signature_t :=
  | SArg (a : ArgSpec)
  | SFull (f : FullArgSpec).

(** What the [inspect] module answers for one callable. *)
Record introspection := {
  getargspec : result ArgSpec;
  getfullargspec : result FullArgSpec
}.

Record callable := {
  (** the identity of the object: what [is] compares and [id] numbers *)
  fn_ref : nat;
  fn_module : str;
  fn_name : str;
  fn_doc : option str;
  fn_inspect : introspection;
  fn_original_function : option introspection
}.

(** [signature.defaults]: the tuple that [inspect] returns, or the list that
    [_replace(defaults=[])] installs. Only the list has [append]. *)
Inductive defaults_t :=
  | DTuple (vs : list pyval)
  | DList (vs : list pyval).

Definition defaults_items (d : defaults_t) : list pyval :=
  match d with DTuple vs | DList vs => vs end.

Fixpoint dict_get (k : str) (d : list (str * pyval)) : option pyval :=
  match d with
  | [] => None
  | (k', v) :: d' => if str_eqb k k' then Some v else dict_get k d'
  end.

(** [defaults.append(signature.kwonlydefaults[kwa])]: the attribute [append]
    is resolved before the subscript is evaluated. *)
Definition append_kwonlydefault (kwonlydefaults : option (list (str * pyval)))
    (defaults : defaults_t) (kwa : str) : result defaults_t :=
  match defaults with
  | DTuple _ => Raise AttributeError
  | DList vs =>
    match kwonlydefaults with
    | None => Raise TypeError
    | Some d =>
      match dict_get kwa d with
      | None => Raise KeyError
      | Some v => Ok (DList (vs ++ [v]))
      end
    end
  end.

Fixpoint append_kwonlydefaults (kwonlydefaults : option (list (str * pyval)))
    (defaults : defaults_t) (kwonlyargs : list str) : result defaults_t :=
  match kwonlyargs with
  | [] => Ok defaults
  | kwa :: rest =>
    d ← append_kwonlydefault kwonlydefaults defaults kwa;
    append_kwonlydefaults kwonlydefaults d rest
  end.

(** Lines 196-203: pick the argument specification. *)
Definition read_signature (fn : callable) : result signature_t :=
  match fn_original_function fn with
  | None =>
    match getargspec (fn_inspect fn) with
    | Ok a => Ok (SArg a)
    | Raise ValueError => SFull <$> getfullargspec (fn_inspect fn)
    | Raise e => Raise e
    | OutOfFuel => OutOfFuel
    end
  | Some wrapped => SArg <$> getargspec wrapped
  end.

Definition replace_none_defaults (d : option (list pyval)) : defaults_t :=
  match d with
  | None => DList []
  | Some vs => DTuple vs
  end.

(** Lines 204-210: the parameter names and default values, keyword-only
    parameters included. *)
Definition signature_args_defaults (signature : signature_t)
    : result (list str * list pyval) :=
  match signature with
  | SArg a => Ok (as_args a, defaults_items (replace_none_defaults (as_defaults a)))
  | SFull f =>
    let args := fa_args f ++ fa_kwonlyargs f in
    d ← append_kwonlydefaults (fa_kwonlydefaults f)
          (replace_none_defaults (fa_defaults f)) (fa_kwonlyargs f);
    Ok (args, defaults_items d)
  end.

(** Lines 211-219: [args], [kwargs], and whether [kwargs] is true in
    [if kwargs or args]: a [zip] object always is, the list [[]] is not. *)
Definition split_args (method : bool) (all_args : list str) (defaults : list pyval)
    : list str * list (str * pyval) * bool :=
  let args := if method then slice (Some 1) None all_args else all_args in
  match defaults with
  | _ :: _ =>
    let n := Z.of_nat (length defaults) in
    (slice None (Some (- n)) args, zip (slice (Some (- n)) None args) defaults, true)
  | [] => (args, [], false)
  end.

Definition render_default (v : pyval) : str :=
  match v with
  | VStr s => lit "'" ++ s ++ lit "'"
  | VOther text => text
  end.

(** Lines 220-231. *)
Definition render_signature (module name : str) (args : list str)
    (kwargs : list (str * pyval)) (kwargs_true : bool) : str :=
  let st := clean_module_name module ++ lit "." ++ name ++ lit "(" in
  let st := foldl (λ st a, st ++ a ++ lit ", ") st args in
  let st := foldl (λ st av, st ++ av.1 ++ lit "=" ++ render_default av.2 ++ lit ", ") st kwargs in
  if kwargs_true || negb (bool_decide (args = [])) then slice None (Some (-2)) st ++ lit ")"
  else st ++ lit ")".

Definition get_function_signature (fn : callable) (method : bool) : result str :=
  signature ← read_signature fn;
  '(all_args, defaults) ← signature_args_defaults signature;
  let '(args, kwargs, kwargs_true) := split_args method all_args defaults in
  Ok (post_process_signature
        (render_signature (fn_module fn) (fn_name fn) args kwargs kwargs_true)).

Record class := {
  cls_ref : nat;
  cls_module : str;
  cls_name : str;
  cls_doc : option str;
  (** [cls.__init__]; [None] when the attribute lookup fails. *)
  cls_init : option callable;
  (** [inspect.getsourcelines(cls)[-1]] *)
  cls_source_line : result nat;
  (** [inspect.getmembers(cls, predicate=inspect.isroutine)], sorted by name. *)
  cls_routines : list (str * callable);
  (** the other attributes that [getattr(cls, m)] can reach *)
  cls_attrs : list (str * callable)
}.

Definition get_class_signature (cls : class) : result str :=
  let attempt :=
    init ← match cls_init cls with Some f => Ok f | None => Raise AttributeError end;
    class_signature ← get_function_signature init true;
    Ok (str_replace (lit "__init__") (cls_name cls) class_signature) in
  class_signature ←
    match attempt with
    | Ok s => Ok s
    | Raise TypeError | Raise AttributeError =>
      Ok (clean_module_name (cls_module cls) ++ lit "." ++ cls_name cls ++ lit "()")
    | Raise e => Raise e
    | OutOfFuel => OutOfFuel
    end;
  Ok (post_process_signature class_signature).

(** ** Docstrings *)

(** [\s] on a [str] pattern, for the code points below 256. *)
Definition is_space (c : ascii) : bool :=
  let n := nat_of_ascii c in
  ((9 <=? n) && (n <=? 13) || (28 <=? n) && (n <=? 32) || (n =? 133) || (n =? 160))%nat.

(** [re.search(r"\S", s).start()], [None] when nothing matches. *)
Fixpoint first_nonspace (s : str) : option nat :=
  match s with
  | [] => None
  | c :: s' => if is_space c then S <$> first_nonspace s' else Some 0%nat
  end.

Definition count_leading_spaces (s : str) : nat :=
  match first_nonspace s with
  | Some start => start
  | None => 0%nat
  end.

(** The longest prefix whose characters satisfy [p]: a greedy [x*]. *)
Fixpoint take_run (p : ascii → bool) (s : str) : str :=
  match s with
  | c :: s' => if p c then c :: take_run p s' else []
  | [] => []
  end.

(** A greedy run of [.]: up to the end of the line. *)
Definition line_rest (s : str) : str := take_run (λ c, negb (chr_eqb c nl)) s.

(** [line.lstrip(" ")] *)
Fixpoint lstrip (s : str) : str :=
  match s with
  | c :: s' => if chr_eqb c sp then lstrip s' else s
  | [] => []
  end.

(** [str(n)] and ["%d" % n] *)
Definition str_of_nat (n : nat) : str :=
  lit (NilEmpty.string_of_uint (Nat.to_uint n)).

(** [re.search]: the leftmost position where the anchored matcher succeeds. *)
Fixpoint re_search {A} (m : str → option A) (s : str) : option (nat * A) :=
  match m s with
  | Some r => Some (0%nat, r)
  | None =>
    match s with
    | [] => None
    | _ :: s' => prod_map S id <$> re_search m s'
    end
  end.

(** A heading at the start of [s]: a newline, a non-empty run of [ws]
    characters, a hash and a space, the rest of the line and its newline.
    [section_regex] and the pattern of the section titles both have this
    shape; the result is the length of the match with groups 1 and 2. *)
Definition match_heading (ws : ascii → bool) (s : str) : option (nat * str * str) :=
  match s with
  | c :: s1 =>
    if chr_eqb c nl then
      let run := take_run ws s1 in
      match run, drop (length run) s1 with
      | _ :: _, h :: b :: s2 =>
        if chr_eqb h "#"%char && chr_eqb b sp then
          let title := line_rest s2 in
          match drop (length title) s2 with
          | _ :: _ => Some ((length run + length title + 4)%nat, run, title)
          | [] => None
          end
        else None
      | _, _ => None
      end
    else None
  | [] => None
  end.

Definition section_regex (s : str) : option (nat * str * str) :=
  match_heading (λ c, chr_eqb c sp) s.

Definition title_regex (s : str) : option (nat * str * str) :=
  match_heading is_space s.

(** [re.sub("^" + " " * n, "", line)] *)
Definition strip_indent (n : nat) (line : str) : str :=
  if starts_with (replicate n sp) line then drop n line else line.

Definition is_key_char (c : ascii) : bool :=
  negb (is_space c || chr_eqb c "\"%char || chr_eqb c "("%char).

(** The key of [top_level_regex] at the start of [s]: the longest non-empty
    run of characters other than whitespace, backslash and opening parenthesis
    that a colon follows. Returns the key and the text after its colon. *)
Fixpoint key_split (s : str) : option (str * str) :=
  match s with
  | [] => None
  | c :: s' =>
    if is_key_char c then
      match key_split s' with
      | Some (k, r) => Some (c :: k, r)
      | None =>
        match s' with
        | d :: r => if chr_eqb d ":"%char then Some ([c], r) else None
        | [] => None
        end
      end
    else None
  end.

(** [re.sub(top_level_regex, top_level_replacement, line)]; the text that
    follows the colon is kept whether group 2 takes it or not. *)
Definition top_level_sub (line : str) : str :=
  if starts_with (lit "    ") line then
    match key_split (drop 4 line) with
    | Some (k, r) => lit "- __" ++ k ++ lit "__:" ++ r
    | None => line
    end
  else line.

(** One step of the loop that fixes the text lines after lists. *)
Definition fix_text_line (st : nat * bool) (line : str) : (nat * bool) * str :=
  let '(indent, text_block) := st in
  match first_nonspace line with
  | Some start =>
    if bool_decide (line !! start = Some "-"%char) then
      ((start + 1)%nat, false, if text_block then nl :: line else line)
    else if (start <? indent)%nat then
      (start, true, nl :: line)
    else (indent, text_block, line)
  | None => (0%nat, false, line)
  end.

Fixpoint fix_text_lines (st : nat * bool) (lines : list str) : list str :=
  match lines with
  | [] => []
  | line :: rest =>
    let '(st', line') := fix_text_line st line in
    line' :: fix_text_lines st' rest
  end.

(** The block that [process_list_block] cuts out of the docstring. *)
Definition list_block (docstring : str) (starting_point : nat) : str :=
  let ending_point := str_find_from [nl; nl] docstring starting_point in
  slice (Some (Z.of_nat starting_point))
        (if ending_point =? -1 then None else Some (ending_point - 1)) docstring.

(** The lines of the block as [process_list_block] rewrites them. *)
Definition list_block_lines (leading_spaces : nat) (block : str) : list str :=
  let lines := str_split nl block in
  let lines := map (strip_indent leading_spaces) lines in
  let lines := map top_level_sub lines in
  let lines := map (strip_indent 4) lines in
  fix_text_lines (0%nat, false) lines.

Definition process_list_block (docstring : str) (starting_point leading_spaces : nat)
    (marker : str) : str * str :=
  let block := list_block docstring starting_point in
  let docstring := str_replace block marker docstring in
  (docstring, str_join [nl] (list_block_lines leading_spaces block)).

Definition fence : str := lit "```".

Definition code_block_marker (n : nat) : str := lit "$CODE_BLOCK_" ++ str_of_nat n.

(** The loop over [inner_lines] that computes [leading_spaces]. *)
Definition min_leading_spaces (inner_lines : list str) : option nat :=
  foldl (λ leading_spaces line,
           match line with
           | [] => leading_spaces
           | c :: _ =>
             if chr_eqb c nl then leading_spaces
             else
               let spaces := count_leading_spaces line in
               match leading_spaces with
               | None => Some spaces
               | Some m => if (spaces <? m)%nat then Some spaces else Some m
               end
           end) None inner_lines.

(** Lines 348-372: the snippet with its indentation removed. *)
Definition dedent_snippet (snippet : str) : str :=
  let snippet_lines := str_split nl snippet in
  let num_leading_spaces := str_find (lit "`") (default [] (last snippet_lines)) in
  let snippet_lines :=
    slice None (Some 1) snippet_lines
    ++ map (slice (Some num_leading_spaces) None) (slice (Some 1) None snippet_lines) in
  let inner_lines := slice (Some 1) (Some (-1)) snippet_lines in
  let snippet_lines :=
    match min_leading_spaces inner_lines with
    | Some (S _ as leading_spaces) =>
      slice None (Some 1) snippet_lines
      ++ map (slice (Some (Z.of_nat leading_spaces)) None) (slice (Some 1) (Some (-1)) snippet_lines)
      ++ slice (Some (-1)) None snippet_lines
    | _ => snippet_lines
    end in
  str_join [nl] snippet_lines.

(** Lines 342-374: the [while] loop; [None] when [fuel] iterations do not
    finish it. *)
Fixpoint extract_code_blocks (fuel : nat) (tmp docstring : str) (code_blocks : list str)
    : option (str * list str) :=
  if contains fence tmp then
    match fuel with
    | O => None
    | S fuel' =>
      let tmp := slice (Some (str_find fence tmp)) None tmp in
      let index := str_find fence (slice (Some 3) None tmp) + 6 in
      let snippet := slice None (Some index) tmp in
      let docstring :=
        str_replace snippet (code_block_marker (length code_blocks)) docstring in
      extract_code_blocks fuel' (slice (Some index) None tmp) docstring
        (code_blocks ++ [dedent_snippet snippet])
    end
  else Some (docstring, code_blocks).

(** [sections[marker] = content] on a dict kept in insertion order. *)
Fixpoint dict_set (k v : str) (d : list (str * str)) : list (str * str) :=
  match d with
  | [] => [(k, v)]
  | (k', v') :: d' => if str_eqb k k' then (k, v) :: d' else (k', v') :: dict_set k v d'
  end.

(** Lines 381-390: the [while] loop over the section markers; [None] when
    [fuel] iterations do not finish it. *)
Fixpoint format_sections (fuel : nat) (docstring : str) (shift : nat)
    (sections : list (str * str)) : option (str * list (str * str)) :=
  match re_search section_regex (drop shift docstring) with
  | Some (start, (len, group1, anchor)) =>
    match anchor with
    | [] => Some (docstring, sections)
    | _ :: _ =>
      match fuel with
      | O => None
      | S fuel' =>
        let leading_spaces := length group1 in
        let shift := (shift + (start + len))%nat in
        let marker := lit "$" ++ str_replace (lit " ") (lit "_") anchor ++ lit "$" in
        let '(docstring, content) :=
          process_list_block docstring shift leading_spaces marker in
        format_sections fuel' docstring shift (dict_set marker content sections)
      end
    end
  | None => Some (docstring, sections)
  end.

(** The section titles: the match becomes the newline, group 1, the title
    between double underscores and two newlines. *)
Definition title_sub (s : str) : option (nat * str) :=
  '(len, group1, group2) ← title_regex s;
  Some (len, [nl] ++ group1 ++ lit "__" ++ group2 ++ lit "__" ++ [nl; nl]).

Definition param_literal_sub (s : str) : option (nat * str) :=
  literal_match (lit ":param") ([nl] ++ lit "**Arguments**  " ++ [nl] ++ lit ":param") s.

(** The index of the last colon of [s]. *)
Fixpoint last_colon (s : str) : option nat :=
  match s with
  | [] => None
  | c :: s' =>
    match last_colon s' with
    | Some i => Some (S i)
    | None => if chr_eqb c ":"%char then Some 0%nat else None
    end
  end.

(** [:param], a greedy run of [.] as group 1, and a colon. *)
Definition param_sub (s : str) : option (nat * str) :=
  if starts_with (lit ":param") s then
    let rest := line_rest (drop 6 s) in
    i ← last_colon rest;
    Some ((6 + i + 1)%nat, [nl] ++ lit "- `" ++ take i rest ++ lit "`:")
  else None.

Definition is_lower (c : ascii) : bool :=
  let n := nat_of_ascii c in (97 <=? n)%nat && (n <=? 122)%nat.

(** [c.upper()] for a character of [a-z]. *)
Definition upper (c : ascii) : ascii := ascii_of_nat (nat_of_ascii c - 32).

Definition return_upper_sub (s : str) : option (nat * str) :=
  if starts_with (lit ":return: ") s then
    match drop 9 s with
    | c :: _ => if is_lower c then Some (10%nat, lit ":return: " ++ [upper c]) else None
    | [] => None
    end
  else None.

Definition return_sub (s : str) : option (nat * str) :=
  literal_match (lit ":return:") ([nl] ++ lit "**Return**  " ++ [nl]) s.

Definition lstrip_lines (docstring : str) : str :=
  str_join [nl] (map lstrip (str_split nl docstring)).

(** Lines 399-405: the markers are replaced in the order of the dict and of
    the list. *)
Definition reinject_sections (sections : list (str * str)) (docstring : str) : str :=
  foldl (λ docstring mc, str_replace mc.1 mc.2 docstring) docstring sections.

Definition reinject_code_blocks (code_blocks : list str) (docstring : str) : str :=
  foldl (λ docstring ib, str_replace (code_block_marker ib.1) ib.2 docstring)
        docstring (imap pair code_blocks).

(** Lines 407-415. *)
Definition spektral_subs (docstring : str) : str :=
  let docstring := gsub param_literal_sub (Some 1%nat) docstring in
  let docstring := gsub param_sub None docstring in
  let docstring := gsub return_upper_sub None docstring in
  gsub return_sub None docstring.

Definition process_docstring (fuel : nat) (docstring : str) : option str :=
  '(docstring, code_blocks) ←
    (if contains fence docstring then extract_code_blocks fuel docstring docstring []
     else Some (docstring, []));
  '(docstring, sections) ← format_sections fuel docstring 0 [];
  let docstring := gsub title_sub None docstring in
  let docstring := lstrip_lines docstring in
  let docstring := reinject_sections sections docstring in
  let docstring := reinject_code_blocks code_blocks docstring in
  Some (spektral_subs docstring).

(** * Properties *)

(** ** Strings *)

Lemma chr_eqb_true (a b : ascii) : chr_eqb a b = true ↔ a = b.
Proof. unfold chr_eqb. apply bool_decide_eq_true. Qed.

Lemma chr_eqb_false (a b : ascii) : chr_eqb a b = false ↔ a ≠ b.
Proof. unfold chr_eqb. apply bool_decide_eq_false. Qed.

Lemma str_eqb_true (a b : str) : str_eqb a b = true ↔ a = b.
Proof. unfold str_eqb. apply bool_decide_eq_true. Qed.

Lemma str_eqb_false (a b : str) : str_eqb a b = false ↔ a ≠ b.
Proof. unfold str_eqb. apply bool_decide_eq_false. Qed.

Lemma cons_head_ne c ls : cons_head c ls ≠ [].
Proof. by destruct ls. Qed.

Lemma cons_head_length c ls : ls ≠ [] → length (cons_head c ls) = length ls.
Proof. by destruct ls. Qed.

Lemma str_split_ne sep s : str_split sep s ≠ [].
Proof. destruct s as [|c s]; simpl; [done|]. case (chr_eqb c sep); [done|apply cons_head_ne]. Qed.

Lemma re_split_dot_ne s : re_split_dot s ≠ [].
Proof.
  destruct s as [|c s]; simpl; [done|].
  case (chr_eqb c "." && dot_splits s); [done|apply cons_head_ne].
Qed.

Lemma str_join_cons sep x ls :
  ls ≠ [] → str_join sep (x :: ls) = x ++ sep ++ str_join sep ls.
Proof. by destruct ls. Qed.

Lemma str_join_cons_head sep c ls :
  ls ≠ [] → str_join sep (cons_head c ls) = c :: str_join sep ls.
Proof. destruct ls as [|h [|h' t]]; simpl; done. Qed.

Lemma str_join_split sep s : str_join [sep] (str_split sep s) = s.
Proof.
  induction s as [|c s IH]; simpl; [done|].
  destruct (chr_eqb c sep) eqn:E.
  - apply chr_eqb_true in E as ->.
    rewrite str_join_cons by apply str_split_ne. simpl. by rewrite IH.
  - rewrite str_join_cons_head by apply str_split_ne. by rewrite IH.
Qed.






(** ** [post_process_signature] *)

Lemma post_process_signature_layers signature :
  let parts := re_split_dot signature in
  (4 ≤ length parts)%nat → parts !! 1%nat = Some (lit "layers") →
  post_process_signature signature
  = lit "spektral.layers." ++ str_join (lit ".") (drop 3 parts).
Proof.
  intros parts Hlen Hp. unfold post_process_signature. fold parts.
  apply Nat.leb_le in Hlen. rewrite Hlen, Hp. simpl default.
  replace (str_eqb (lit "layers") (lit "utils")) with false by reflexivity.
  by replace (str_eqb (lit "layers") (lit "layers")) with true by reflexivity.
Qed.

Lemma post_process_signature_utils signature :
  let parts := re_split_dot signature in
  (4 ≤ length parts)%nat → parts !! 1%nat = Some (lit "utils") →
  post_process_signature signature
  = lit "spektral.utils." ++ str_join (lit ".") (drop 3 parts).
Proof.
  intros parts Hlen Hp. unfold post_process_signature. fold parts.
  apply Nat.leb_le in Hlen. rewrite Hlen, Hp. simpl default.
  by replace (str_eqb (lit "utils") (lit "utils")) with true by reflexivity.
Qed.

Lemma post_process_signature_unchanged signature :
  let parts := re_split_dot signature in
  ¬ ((4 ≤ length parts)%nat
     ∧ (parts !! 1%nat = Some (lit "layers") ∨ parts !! 1%nat = Some (lit "utils"))) →
  post_process_signature signature = signature.
Proof.
  intros parts Hn. unfold post_process_signature. fold parts.
  destruct (4 <=? length parts)%nat eqn:Hlen; [|done].
  apply Nat.leb_le in Hlen.
  destruct (parts !! 1%nat) as [p|] eqn:Hp.
  2:{ apply lookup_ge_None in Hp. lia. }
  simpl.
  destruct (str_eqb p (lit "utils")) eqn:E1.
  { apply str_eqb_true in E1 as ->. destruct Hn. eauto. }
  destruct (str_eqb p (lit "layers")) eqn:E2; [|done].
  apply str_eqb_true in E2 as ->. destruct Hn. eauto.
Qed.



(** The text after the qualified name is left alone when it holds no dot. *)
Fixpoint app_last (ls : list str) (b : str) : list str :=
  match ls with
  | [] => [b]
  | [l] => [l ++ b]
  | l :: rest => l :: app_last rest b
  end.

Lemma app_last_cons l ls b : ls ≠ [] → app_last (l :: ls) b = l :: app_last ls b.
Proof. by destruct ls. Qed.

Lemma app_last_ne ls b : app_last ls b ≠ [].
Proof. destruct ls as [|l [|l' ls]]; done. Qed.

Lemma app_last_cons_head c ls b :
  ls ≠ [] → app_last (cons_head c ls) b = cons_head c (app_last ls b).
Proof. destruct ls as [|l [|l' ls]]; done. Qed.

Lemma app_last_length ls b : ls ≠ [] → length (app_last ls b) = length ls.
Proof.
  induction ls as [|l ls IH]; [done|]. intros _.
  destruct ls as [|l' ls]; [done|]. rewrite app_last_cons by done.
  simpl in *. by rewrite IH.
Qed.

Lemma app_last_lookup ls b i :
  (S i < length ls)%nat → app_last ls b !! i = ls !! i.
Proof.
  revert i. induction ls as [|l ls IH]; intros i Hi; [simpl in Hi; lia|].
  destruct ls as [|l' ls]; [simpl in Hi; lia|]. rewrite app_last_cons by done.
  destruct i as [|i]; [done|]. simpl. apply IH. simpl in *. lia.
Qed.

Lemma app_last_drop ls b n :
  (n < length ls)%nat → drop n (app_last ls b) = app_last (drop n ls) b.
Proof.
  revert n. induction ls as [|l ls IH]; intros n Hn; [simpl in Hn; lia|].
  destruct n as [|n]; [done|].
  destruct ls as [|l' ls]; [simpl in Hn; lia|]. rewrite app_last_cons by done.
  simpl. apply IH. simpl in *. lia.
Qed.

Lemma str_join_app_last sep ls b :
  ls ≠ [] → str_join sep (app_last ls b) = str_join sep ls ++ b.
Proof.
  induction ls as [|l ls IH]; [done|]. intros _.
  destruct ls as [|l' ls]; [done|]. rewrite app_last_cons by done.
  rewrite !str_join_cons by (done || apply app_last_ne).
  rewrite IH by done. by rewrite <- !app_assoc.
Qed.

Lemma re_split_dot_app a b :
  "."%char ∉ b → dot_splits b = true →
  re_split_dot (a ++ b) = app_last (re_split_dot a) b.
Proof.
  intros Hb Hd. induction a as [|c a IH]; simpl.
  - clear Hd. induction b as [|d b IHb]; [done|]. simpl.
    apply not_elem_of_cons in Hb as [Hd Hb].
    replace (chr_eqb d ".") with false by (symmetry; by apply chr_eqb_false).
    simpl. by rewrite IHb.
  - assert (dot_splits (a ++ b) = dot_splits a) as ->.
    { destruct a; [|done]. simpl. by rewrite Hd. }
    destruct (chr_eqb c "." && dot_splits a).
    + rewrite IH. by rewrite app_last_cons by apply re_split_dot_ne.
    + rewrite IH. by rewrite app_last_cons_head by apply re_split_dot_ne.
Qed.

Lemma post_process_signature_app a b :
  "."%char ∉ b → dot_splits b = true →
  post_process_signature (a ++ b) = post_process_signature a ++ b.
Proof.
  intros Hb Hd. unfold post_process_signature.
  rewrite re_split_dot_app by done.
  pose proof (re_split_dot_ne a) as Hne.
  rewrite app_last_length by done.
  destruct (4 <=? length (re_split_dot a))%nat eqn:Hlen; [|done].
  apply Nat.leb_le in Hlen.
  rewrite app_last_lookup by lia. rewrite app_last_drop by lia.
  rewrite str_join_app_last.
  2:{ intros E. apply (f_equal length) in E. rewrite length_drop in E. simpl in E. lia. }
  repeat case_match; by rewrite <- ?app_assoc.
Qed.

(** ** Slices *)

Lemma slice_from (A : Type) (k : nat) (l : list A) :
  slice (Some (Z.of_nat k)) None l = drop k l.
Proof.
  unfold slice, norm_index.
  destruct (Z.ltb_spec (Z.of_nat k) 0) as [?|_]; [lia|].
  rewrite Nat2Z.id. destruct (Nat.min_spec (length l) k) as [[? ->]|[? ->]].
  - rewrite Nat.sub_diag, drop_all. simpl. symmetry. apply drop_ge. lia.
  - rewrite <- length_drop. apply firstn_all.
Qed.

Lemma slice_to_neg (A : Type) (k : nat) (l : list A) :
  (0 < k)%nat → slice None (Some (- Z.of_nat k)) l = take (length l - k) l.
Proof.
  intros Hk. unfold slice, norm_index.
  destruct (Z.ltb_spec (- Z.of_nat k) 0) as [_|?]; [|lia].
  rewrite drop_0, Nat.sub_0_r. f_equal. lia.
Qed.

Lemma slice_from_neg (A : Type) (k : nat) (l : list A) :
  (0 < k)%nat → slice (Some (- Z.of_nat k)) None l = drop (length l - k) l.
Proof.
  intros Hk. unfold slice, norm_index.
  destruct (Z.ltb_spec (- Z.of_nat k) 0) as [_|?]; [|lia].
  replace (Z.to_nat (Z.max 0 (Z.of_nat (length l) + - Z.of_nat k)))
    with (length l - k)%nat by lia.
  rewrite <- (length_drop l (length l - k)) at 1. apply firstn_all.
Qed.


(** ** [get_function_signature] *)

Lemma foldl_app_concat (A : Type) (f : A → str) (l : list A) (st : str) :
  foldl (λ st a, st ++ f a) st l = st ++ concat (map f l).
Proof.
  revert st. induction l as [|a l IH]; intros st; simpl.
  - by rewrite app_nil_r.
  - by rewrite IH, <- app_assoc.
Qed.

Lemma concat_sep_join (sep : str) (l : list str) :
  l ≠ [] → concat (map (λ a, a ++ sep) l) = str_join sep l ++ sep.
Proof.
  induction l as [|a l IH]; [done|]. intros _.
  destruct l as [|b l]; [by simpl; rewrite app_nil_r|].
  rewrite str_join_cons by done. simpl in *. rewrite IH by done.
  by rewrite <- !app_assoc.
Qed.

Lemma render_signature_positional module name args :
  render_signature module name args [] false
  = module ++ lit "." ++ name ++ lit "(" ++ str_join (lit ", ") args ++ lit ")".
Proof.
  unfold render_signature, clean_module_name. cbn [foldl].
  rewrite (foldl_app_concat _ (λ a, a ++ lit ", ")).
  destruct args as [|a args].
  - rewrite bool_decide_eq_true_2 by done. cbn [negb orb map concat str_join].
    by rewrite !app_nil_r, <- !app_assoc.
  - rewrite bool_decide_eq_false_2 by done. cbn [negb orb].
    rewrite concat_sep_join by done.
    rewrite !app_assoc. change (-2) with (- Z.of_nat (length (lit ", "))).
    rewrite slice_to_neg by (vm_compute; lia).
    rewrite length_app. rewrite Nat.add_sub. by rewrite take_app_length.
Qed.

(** The parameters that [get_function_signature] reads on a function without
    default values: an [ArgSpec], or a [FullArgSpec] without keyword-only
    parameters. *)
Definition positional_only (signature : signature_t) (args : list str) : Prop :=
  match signature with
  | SArg a => as_args a = args ∧ default [] (as_defaults a) = []
  | SFull f => fa_args f = args ∧ default [] (fa_defaults f) = [] ∧ fa_kwonlyargs f = []
  end.

Lemma signature_args_defaults_positional signature args :
  positional_only signature args →
  signature_args_defaults signature = Ok (args, []).
Proof.
  destruct signature as [a|f]; simpl.
  - intros [<- Hd]. by destruct (as_defaults a) as [[|]|].
  - intros (<- & Hd & ->). simpl. rewrite app_nil_r.
    by destruct (fa_defaults f) as [[|]|].
Qed.

Lemma get_function_signature_positional fn signature args :
  read_signature fn = Ok signature →
  positional_only signature args →
  get_function_signature fn false
  = Ok (post_process_signature
          (fn_module fn ++ lit "." ++ fn_name fn ++ lit "(" ++ str_join (lit ", ") args ++ lit ")")).
Proof.
  intros Hr Hp. unfold get_function_signature. rewrite Hr. simpl.
  rewrite (signature_args_defaults_positional _ _ Hp). simpl.
  by rewrite render_signature_positional.
Qed.

Lemma str_join_no_dot (args : list str) :
  Forall (λ a, "."%char ∉ a) args → "."%char ∉ str_join (lit ", ") args.
Proof.
  induction 1 as [|a args Ha _ IH]; [by intros ?%elem_of_nil|].
  destruct args as [|b args]; [done|].
  rewrite str_join_cons by done. rewrite !not_elem_of_app. split_and!; [done| |done].
  vm_compute lit. rewrite !not_elem_of_cons. split_and!; [done..|apply not_elem_of_nil].
Qed.

Definition module_function (module name : str) (spec : ArgSpec) : callable :=
  {| fn_ref := 0; fn_module := module; fn_name := name; fn_doc := None;
     fn_inspect := {| getargspec := Ok spec; getfullargspec := Raise TypeError |};
     fn_original_function := None |}.

Definition positional_spec (args : list str) : ArgSpec :=
  {| as_args := args; as_varargs := None; as_keywords := None; as_defaults := None |}.

(** C6, as stated, fails: a function of [spektral.utils.misc] without
    parameters is rendered with the shortened prefix, not as
    [module.name()]. *)
Lemma get_function_signature_no_defaults_counterexample :
  let fn := module_function (lit "spektral.utils.misc") (lit "f") (positional_spec []) in
  read_signature fn = Ok (SArg (positional_spec []))
  ∧ positional_only (SArg (positional_spec [])) []
  ∧ get_function_signature fn false = Ok (lit "spektral.utils.f()")
  ∧ get_function_signature fn false
    ≠ Ok (fn_module fn ++ lit "." ++ fn_name fn ++ lit "()").
Proof. vm_compute. split_and!; done. Qed.

(** C6, amended. For a function whose parameters have no default values and
    are not keyword-only, rendered with [method=False], the signature is the
    qualified name [module.name] as [post_process_signature] shortens it,
    followed by the parenthesised parameter names in declaration order,
    separated by a comma and a space, with no trailing comma; without
    parameters the parentheses are empty. The qualified name is kept as it is
    unless it has at least four parts with second part [layers] or [utils]. *)
Theorem get_function_signature_no_defaults (fn : callable) (signature : signature_t)
    (args : list str) :
  read_signature fn = Ok signature →
  positional_only signature args →
  Forall (λ a, "."%char ∉ a) args →
  let qualified := fn_module fn ++ lit "." ++ fn_name fn in
  get_function_signature fn false
  = Ok (post_process_signature qualified ++ lit "(" ++ str_join (lit ", ") args ++ lit ")")
  ∧ (args = [] →
     get_function_signature fn false = Ok (post_process_signature qualified ++ lit "()"))
  ∧ (¬ ((4 ≤ length (re_split_dot qualified))%nat
        ∧ (re_split_dot qualified !! 1%nat = Some (lit "layers")
           ∨ re_split_dot qualified !! 1%nat = Some (lit "utils"))) →
     get_function_signature fn false
     = Ok (qualified ++ lit "(" ++ str_join (lit ", ") args ++ lit ")")).
Proof.
  intros Hr Hp Hdots qualified.
  assert (get_function_signature fn false
    = Ok (post_process_signature qualified ++ lit "(" ++ str_join (lit ", ") args ++ lit ")"))
    as Heq.
  { rewrite (get_function_signature_positional _ _ _ Hr Hp). f_equal.
    replace (fn_module fn ++ lit "." ++ fn_name fn ++ lit "(" ++ str_join (lit ", ") args ++ lit ")")
      with (qualified ++ (lit "(" ++ str_join (lit ", ") args ++ lit ")"))
      by (unfold qualified; by rewrite <- !app_assoc).
    apply post_process_signature_app; [|done].
    rewrite !not_elem_of_app. split_and!.
    - vm_compute lit. rewrite not_elem_of_cons. split; [done|apply not_elem_of_nil].
    - by apply str_join_no_dot.
    - vm_compute lit. rewrite not_elem_of_cons. split; [done|apply not_elem_of_nil]. }
  split_and!; [done| |].
  - intros ->. by rewrite Heq.
  - intros Hn. rewrite Heq. by rewrite post_process_signature_unchanged.
Qed.

Lemma get_function_signature_no_defaults_witness :
  get_function_signature
    (module_function (lit "spektral.utils.convolution") (lit "degree_power")
       (positional_spec [lit "A"; lit "k"])) false
  = Ok (lit "spektral.utils.degree_power(A, k)").
Proof.
  pose proof (get_function_signature_no_defaults
    (module_function (lit "spektral.utils.convolution") (lit "degree_power")
       (positional_spec [lit "A"; lit "k"]))
    (SArg (positional_spec [lit "A"; lit "k"])) [lit "A"; lit "k"]) as H.
  apply H.
  - reflexivity.
  - split; reflexivity.
  - apply (bool_decide_unpack _). by vm_compute.
Defined.

Lemma split_args_method first rest defaults :
  ∃ args kwargs kwargs_true,
    split_args true (first :: rest) defaults = (args, kwargs, kwargs_true)
    ∧ args ++ kwargs.*1 = rest.
Proof.
  unfold split_args. change (Some 1) with (Some (Z.of_nat 1)).
  rewrite slice_from. simpl drop.
  destruct defaults as [|d ds] eqn:Ed.
  - exists rest, [], false. split; [done|]. simpl. apply app_nil_r.
  - rewrite <- Ed. set (n := length defaults).
    assert (0 < n)%nat by (unfold n; rewrite Ed; simpl; lia).
    eexists _, _, _. split; [done|].
    rewrite slice_to_neg, slice_from_neg by done.
    rewrite fst_zip.
    + apply take_drop.
    + rewrite length_drop. fold n. lia.
Qed.

(** C5. When a callable whose parameter list is [first :: rest] is rendered as
    a method, the parameters written into the signature, positional ones and
    then the ones with a default value, are exactly [rest]: the first declared
    parameter is not among them, and its name has no influence on the
    returned string. *)
Theorem get_function_signature_method_drops_first (fn : callable)
    (signature : signature_t) (first : str) (rest : list str) (defaults : list pyval) :
  read_signature fn = Ok signature →
  signature_args_defaults signature = Ok (first :: rest, defaults) →
  (∃ args kwargs kwargs_true,
     get_function_signature fn true
     = Ok (post_process_signature
             (render_signature (fn_module fn) (fn_name fn) args kwargs kwargs_true))
     ∧ args ++ kwargs.*1 = rest
     ∧ (first ∉ rest → (first ∉ args) ∧ (first ∉ kwargs.*1)))
  ∧ (∀ fn' signature' first',
       fn_module fn' = fn_module fn → fn_name fn' = fn_name fn →
       read_signature fn' = Ok signature' →
       signature_args_defaults signature' = Ok (first' :: rest, defaults) →
       get_function_signature fn' true = get_function_signature fn true).
Proof.
  intros Hr Hs.
  destruct (split_args_method first rest defaults) as (args & kwargs & kt & Hsplit & Hrest).
  split.
  - exists args, kwargs, kt. unfold get_function_signature.
    rewrite Hr. simpl. rewrite Hs. simpl. rewrite Hsplit.
    split_and!; [done..|].
    intros Hnot. rewrite <- Hrest in Hnot. by apply not_elem_of_app in Hnot.
  - intros fn' signature' first' Hm Hn Hr' Hs'.
    unfold get_function_signature.
    rewrite Hr, Hr'. simpl. rewrite Hs, Hs'. simpl. rewrite Hm, Hn.
    unfold split_args. change (Some 1) with (Some (Z.of_nat 1)).
    by rewrite !slice_from.
Qed.

Definition method_spec (args : list str) (defaults : option (list pyval)) : ArgSpec :=
  {| as_args := args; as_varargs := None; as_keywords := None; as_defaults := defaults |}.

Lemma get_function_signature_method_drops_first_witness :
  ∃ args kwargs kwargs_true,
    get_function_signature
      (module_function (lit "spektral.data.graph") (lit "numpy")
         (method_spec [lit "self"; lit "x"; lit "y"] (Some [VOther (lit "None")]))) true
    = Ok (post_process_signature
            (render_signature (lit "spektral.data.graph") (lit "numpy")
               args kwargs kwargs_true))
    ∧ args ++ kwargs.*1 = [lit "x"; lit "y"]
    ∧ (lit "self" ∉ [lit "x"; lit "y"] → (lit "self" ∉ args) ∧ (lit "self" ∉ kwargs.*1)).
Proof.
  apply (get_function_signature_method_drops_first
           (module_function (lit "spektral.data.graph") (lit "numpy")
              (method_spec [lit "self"; lit "x"; lit "y"] (Some [VOther (lit "None")])))
           (SArg (method_spec [lit "self"; lit "x"; lit "y"] (Some [VOther (lit "None")])))
           (lit "self") [lit "x"; lit "y"] [VOther (lit "None")]); reflexivity.
Defined.

(** ** [get_class_signature] *)







(** ** [process_list_block] *)

Lemma starts_with_app p s : starts_with p (p ++ s) = true.
Proof.
  induction p as [|c p IH]; [done|]. simpl.
  unfold chr_eqb. by rewrite bool_decide_eq_true_2.
Qed.










(** Closed facts about literal texts. *)
Ltac solve_lit := apply (bool_decide_unpack _); by vm_compute.

(** ** Searching and substituting *)

(** [sub] occurs in [s] at some position. *)
Definition occurs (sub s : str) : Prop := ∃ k : nat, starts_with sub (drop k s) = true.

(** The anchored matcher [m] succeeds at no position of [s]. *)
Definition never_matches {A} (m : str → option A) (s : str) : Prop :=
  ∀ k : nat, m (drop k s) = None.

Lemma never_matches_cons {A} (m : str → option A) c s :
  never_matches m (c :: s) ↔ m (c :: s) = None ∧ never_matches m s.
Proof.
  split.
  - intros H. split; [apply (H 0%nat)|]. intros k. apply (H (S k)).
  - intros [H0 H] [|k]; [done|apply H].
Qed.

Lemma occurs_cons sub c s :
  occurs sub (c :: s) ↔ starts_with sub (c :: s) = true ∨ occurs sub s.
Proof.
  split.
  - intros [[|k] Hk]; [by left|right; by exists k].
  - intros [H|[k Hk]]; [by exists 0%nat|by exists (S k)].
Qed.

Lemma starts_with_nil_r sub : starts_with sub [] = true → sub = [].
Proof. by destruct sub. Qed.

Lemma str_find_range sub s : str_find sub s = -1 ∨ 0 ≤ str_find sub s.
Proof.
  induction s as [|c s IH]; simpl.
  - case (starts_with sub []); lia.
  - case (starts_with sub (c :: s)); [lia|].
    destruct (Z.ltb_spec (str_find sub s) 0); lia.
Qed.

Lemma contains_occurs sub s : contains sub s = true ↔ occurs sub s.
Proof.
  unfold contains. rewrite Z.leb_le.
  induction s as [|c s IH].
  - simpl. destruct (starts_with sub []) eqn:E.
    + split; [|lia]. intros _. by exists 0%nat.
    + split; [lia|]. intros [k Hk]. rewrite drop_nil in Hk. congruence.
  - rewrite occurs_cons. simpl. destruct (starts_with sub (c :: s)) eqn:E.
    + split; [by left|lia].
    + pose proof (str_find_range sub s).
      destruct (Z.ltb_spec (str_find sub s) 0); split.
      * lia.
      * intros [?|H']; [done|]. apply IH in H'. lia.
      * intros _. right. apply IH. lia.
      * lia.
Qed.

Lemma contains_false sub s : contains sub s = false ↔ ¬ occurs sub s.
Proof. rewrite <- contains_occurs. by destruct (contains sub s). Qed.

Lemma starts_with_app_l sub a b : starts_with sub a = true → starts_with sub (a ++ b) = true.
Proof.
  revert a. induction sub as [|c sub IH]; intros [|d a]; simpl; try done.
  intros [-> H]%andb_true_iff. by rewrite IH.
Qed.

Lemma occurs_app_l sub a b : occurs sub a → occurs sub (a ++ b).
Proof.
  intros [k Hk]. exists k.
  destruct (decide (k ≤ length a)%nat).
  - rewrite drop_app_le by done. by apply starts_with_app_l.
  - rewrite drop_ge in Hk by lia. apply starts_with_nil_r in Hk as ->. by destruct (drop _ _).
Qed.

Lemma occurs_app_r sub a b : occurs sub b → occurs sub (a ++ b).
Proof.
  intros [k Hk]. exists (length a + k)%nat. by rewrite drop_app_add.
Qed.

(** A character that [sub] does not hold splits the search. *)
Lemma starts_with_sep sub a c b :
  c ∉ sub → starts_with sub (a ++ c :: b) = starts_with sub a.
Proof.
  revert a. induction sub as [|d sub IH]; intros a Hc; [by destruct a|].
  apply not_elem_of_cons in Hc as [Hd Hc].
  destruct a as [|e a]; simpl.
  - replace (chr_eqb d c) with false; [done|]. symmetry. by apply chr_eqb_false.
  - by rewrite IH.
Qed.

Lemma occurs_sep sub a c b :
  c ∉ sub → sub ≠ [] → occurs sub (a ++ c :: b) → occurs sub a ∨ occurs sub b.
Proof.
  intros Hc Hne [k Hk].
  destruct (decide (k ≤ length a)%nat) as [Hle|Hgt].
  - left. exists k. rewrite drop_app_le in Hk by done.
    by rewrite starts_with_sep in Hk.
  - right. exists (k - S (length a))%nat.
    rewrite (drop_app_ge a) in Hk by lia.
    replace (k - length a)%nat with (S (k - S (length a))) in Hk by lia. done.
Qed.

Lemma gsub_aux_no_match m count s :
  never_matches m s → gsub_aux m count 0 s = s.
Proof.
  induction s as [|c s IH]; [done|].
  intros [H0 H]%never_matches_cons. simpl.
  destruct count as [[|n]|]; [done|by rewrite H0, IH..].
Qed.

Lemma gsub_no_match m count s : never_matches m s → gsub m count s = s.
Proof. apply gsub_aux_no_match. Qed.

Lemma re_search_none {A} (m : str → option A) s :
  never_matches m s → re_search m s = None.
Proof.
  induction s as [|c s IH]; intros H.
  - pose proof (H 0%nat) as H0. simpl in *. by rewrite H0.
  - apply never_matches_cons in H as [H0 H]. simpl. by rewrite H0, IH.
Qed.

Lemma re_search_none_inv {A} (m : str → option A) s :
  re_search m s = None → never_matches m s.
Proof.
  induction s as [|c s IH]; simpl.
  - destruct (m []) eqn:E; [done|]. intros _ k. by rewrite drop_nil.
  - destruct (m (c :: s)) eqn:E; [done|].
    destruct (re_search m s); [done|]. intros _.
    apply never_matches_cons. auto.
Qed.

(** A matcher that only succeeds on texts that start with [sub]. *)
Definition guarded {A} (sub : str) (m : str → option A) : Prop :=
  ∀ s, starts_with sub s = false → m s = None.

Lemma guarded_never_matches {A} sub (m : str → option A) s :
  guarded sub m → ¬ occurs sub s → never_matches m s.
Proof.
  intros Hg Hn k. apply Hg.
  destruct (starts_with sub (drop k s)) eqn:E; [|done]. destruct Hn. by exists k.
Qed.

(** ** Stripping the lines *)

(** [lstrip_lines] as one pass over the text: [bol] tells whether the
    position is still in the leading spaces of its line. *)
Fixpoint strip_bol (bol : bool) (s : str) : str :=
  match s with
  | [] => []
  | c :: s' =>
    if chr_eqb c nl then nl :: strip_bol true s'
    else if bol && chr_eqb c sp then strip_bol true s'
    else c :: strip_bol false s'
  end.

(** Every line but the first one stripped. *)
Definition lstrip_tail_lines (s : str) : str :=
  match str_split nl s with
  | [] => []
  | h :: t => str_join [nl] (h :: map lstrip t)
  end.

Lemma lstrip_lines_cons c s :
  lstrip_lines (c :: s)
  = if chr_eqb c nl then nl :: lstrip_lines s
    else if chr_eqb c sp then lstrip_lines s
    else c :: lstrip_tail_lines s.
Proof.
  unfold lstrip_lines, lstrip_tail_lines. cbn [str_split].
  pose proof (str_split_ne nl s) as Hne.
  destruct (chr_eqb c nl) eqn:E1.
  - cbn [map lstrip]. rewrite str_join_cons; [done|]. by destruct (str_split nl s).
  - destruct (str_split nl s) as [|h t]; [done|]. cbn [cons_head map lstrip].
    destruct (chr_eqb c sp); [done|]. by destruct t.
Qed.

Lemma lstrip_tail_lines_cons c s :
  lstrip_tail_lines (c :: s)
  = if chr_eqb c nl then nl :: lstrip_lines s else c :: lstrip_tail_lines s.
Proof.
  unfold lstrip_lines, lstrip_tail_lines. cbn [str_split].
  pose proof (str_split_ne nl s) as Hne.
  destruct (chr_eqb c nl) eqn:E1.
  - rewrite str_join_cons; [done|]. by destruct (str_split nl s).
  - destruct (str_split nl s) as [|h t]; [done|]. cbn [cons_head]. by destruct t.
Qed.

Lemma strip_bol_lines s :
  strip_bol true s = lstrip_lines s ∧ strip_bol false s = lstrip_tail_lines s.
Proof.
  induction s as [|c s [IH1 IH2]]; [done|].
  rewrite lstrip_lines_cons, lstrip_tail_lines_cons. cbn [strip_bol andb].
  rewrite IH1, IH2. by destruct (chr_eqb c nl), (chr_eqb c sp).
Qed.




Lemma starts_with_strip_line sub s :
  nl ∉ sub → starts_with sub (strip_bol false s) = true → starts_with sub s = true.
Proof.
  revert s. induction sub as [|d sub IH]; intros s Hnl; [done|].
  apply not_elem_of_cons in Hnl as [Hd Hnl].
  destruct s as [|c s]; [done|]. cbn [strip_bol andb].
  destruct (chr_eqb c nl) eqn:E1; cbn [starts_with].
  - apply chr_eqb_true in E1 as ->. apply not_eq_sym, chr_eqb_false in Hd. by rewrite Hd.
  - intros [-> H]%andb_true_iff. by rewrite IH.
Qed.

Lemma occurs_strip_bol sub bol s :
  sub ≠ [] → nl ∉ sub → occurs sub (strip_bol bol s) → occurs sub s.
Proof.
  intros Hne Hnl. revert bol. induction s as [|c s IH]; intros bol; [done|].
  cbn [strip_bol]. rewrite (occurs_cons sub c s).
  destruct (chr_eqb c nl) eqn:E1.
  - rewrite occurs_cons. intros [H|H]; [|eauto].
    destruct sub as [|d sub]; [done|]. apply not_elem_of_cons in Hnl as [Hd _].
    apply chr_eqb_true in E1 as ->.
    apply not_eq_sym, chr_eqb_false in Hd. simpl in H. by rewrite Hd in H.
  - destruct (bol && chr_eqb c sp); [eauto|].
    rewrite occurs_cons. intros [H|H]; [left|eauto].
    destruct sub as [|d sub]; [done|]. apply not_elem_of_cons in Hnl as [_ Hnl].
    simpl in *. apply andb_true_iff in H as [-> H].
    by rewrite starts_with_strip_line.
Qed.

Lemma contains_lstrip_lines sub s :
  sub ≠ [] → nl ∉ sub → contains sub s = false → contains sub (lstrip_lines s) = false.
Proof.
  intros Hne Hnl. rewrite !contains_false. intros H H'. apply H.
  rewrite <- (proj1 (strip_bol_lines s)) in H'. by apply occurs_strip_bol in H'.
Qed.

(** ** Headings *)

Lemma take_run_app p s : s = take_run p s ++ drop (length (take_run p s)) s.
Proof. induction s as [|c s IH]; [done|]. simpl. destruct (p c); simpl; congruence. Qed.

Lemma take_run_Forall p s : Forall (λ c, p c = true) (take_run p s).
Proof.
  induction s as [|c s IH]; simpl; [done|].
  destruct (p c) eqn:E; [by constructor|done].
Qed.

Lemma take_run_stops p s c rest :
  drop (length (take_run p s)) s = c :: rest → p c = false.
Proof.
  induction s as [|d s IH]; simpl; [done|].
  destruct (p d) eqn:E; simpl; [done|]. by intros [= <- <-].
Qed.

Lemma take_run_unique q r c rest :
  Forall (λ c, q c = true) r → q c = false → take_run q (r ++ c :: rest) = r.
Proof.
  intros Hr Hc. induction Hr as [|d r Hd _ IH]; simpl.
  - by rewrite Hc.
  - by rewrite Hd, IH.
Qed.



Lemma section_regex_title_regex s :
  title_regex s = None → section_regex s = None.
Proof.
  unfold title_regex, section_regex, match_heading.
  destruct s as [|c s1]; [done|]. destruct (chr_eqb c nl); [|done].
  destruct (take_run (λ c, chr_eqb c sp) s1) as [|r run] eqn:Er; [done|].
  destruct (drop (length (r :: run)) s1) as [|h [|b s2]] eqn:Ed; [done..|].
  destruct (chr_eqb h "#") eqn:Eh; [|done]. apply chr_eqb_true in Eh as ->.
  assert (take_run is_space s1 = r :: run) as ->.
  { rewrite (take_run_app (λ c, chr_eqb c sp) s1) at 1. rewrite Er, Ed.
    apply take_run_unique; [|done].
    rewrite <- Er. eapply Forall_impl; [apply take_run_Forall|].
    by intros x ->%chr_eqb_true. }
  by rewrite Ed.
Qed.

Lemma never_matches_impl {A B} (m1 : str → option A) (m2 : str → option B) s :
  (∀ t, m1 t = None → m2 t = None) → never_matches m1 s → never_matches m2 s.
Proof. intros H H1 k. apply H, H1. Qed.

(** ** The substitutions of the last lines of [process_docstring] *)

Lemma starts_with_prefix p q s :
  starts_with (p ++ q) s = true → starts_with p s = true.
Proof.
  revert s. induction p as [|c p IH]; intros [|d s]; simpl; try done.
  intros [-> H]%andb_true_iff. by rewrite IH.
Qed.

Lemma literal_match_guarded old new : guarded old (literal_match old new).
Proof. intros s H. unfold literal_match. by rewrite H. Qed.

Lemma param_sub_guarded : guarded (lit ":param") param_sub.
Proof. intros s H. unfold param_sub. by rewrite H. Qed.

Lemma return_upper_sub_guarded : guarded (lit ":return:") return_upper_sub.
Proof.
  intros s H. unfold return_upper_sub.
  destruct (starts_with (lit ":return: ") s) eqn:E; [|done].
  change (lit ":return: ") with (lit ":return:" ++ lit " ") in E.
  apply starts_with_prefix in E. congruence.
Qed.

Lemma spektral_subs_unchanged s :
  contains (lit ":param") s = false → contains (lit ":return:") s = false →
  spektral_subs s = s.
Proof.
  intros Hp%contains_false Hr%contains_false. unfold spektral_subs.
  rewrite (gsub_no_match param_literal_sub).
  2:{ eapply guarded_never_matches; [apply literal_match_guarded|done]. }
  rewrite (gsub_no_match param_sub).
  2:{ eapply guarded_never_matches; [apply param_sub_guarded|done]. }
  rewrite (gsub_no_match return_upper_sub).
  2:{ eapply guarded_never_matches; [apply return_upper_sub_guarded|done]. }
  apply gsub_no_match.
  eapply guarded_never_matches; [apply literal_match_guarded|done].
Qed.

(** ** Lines *)

Lemma str_split_no_nl sep s : Forall (λ l, sep ∉ l) (str_split sep s).
Proof.
  induction s as [|c s IH]; simpl.
  - constructor; [apply not_elem_of_nil|done].
  - destruct (chr_eqb c sep) eqn:E.
    + constructor; [apply not_elem_of_nil|done].
    + destruct IH as [|h t Hh Ht]; simpl.
      * constructor; [|done]. apply not_elem_of_cons. split; [|apply not_elem_of_nil].
        apply not_eq_sym. by apply chr_eqb_false.
      * constructor; [|done]. apply not_elem_of_cons. split; [|done].
        apply not_eq_sym. by apply chr_eqb_false.
Qed.

Lemma str_split_line sep l : sep ∉ l → str_split sep l = [l].
Proof.
  induction l as [|c l IH]; [done|]. intros [Hc Hl]%not_elem_of_cons. simpl.
  apply not_eq_sym, chr_eqb_false in Hc. by rewrite Hc, IH.
Qed.

Lemma str_split_app_line sep l s :
  sep ∉ l → str_split sep (l ++ sep :: s) = l :: str_split sep s.
Proof.
  induction l as [|c l IH]; intros Hl; simpl.
  - unfold chr_eqb. by rewrite bool_decide_eq_true_2.
  - apply not_elem_of_cons in Hl as [Hc Hl].
    apply not_eq_sym, chr_eqb_false in Hc. by rewrite Hc, IH.
Qed.

Lemma str_split_join sep ls :
  ls ≠ [] → Forall (λ l, sep ∉ l) ls → str_split sep (str_join [sep] ls) = ls.
Proof.
  intros Hne Hls. induction Hls as [|l ls Hl Hls IH]; [done|].
  destruct ls as [|l' ls].
  - by apply str_split_line.
  - rewrite str_join_cons by done. cbn [app].
    rewrite str_split_app_line by done. by rewrite IH.
Qed.

Lemma lstrip_spec l :
  ∃ k : nat, l = replicate k sp ++ lstrip l ∧ head (lstrip l) ≠ Some sp.
Proof.
  induction l as [|c l (k & IH1 & IH2)]; [by exists 0%nat|]. simpl.
  destruct (chr_eqb c sp) eqn:E.
  - apply chr_eqb_true in E as ->. exists (S k). simpl. split; [congruence|done].
  - exists 0%nat. split; [done|]. simpl. intros [= ->].
    unfold chr_eqb in E. by rewrite bool_decide_eq_true_2 in E.
Qed.

Lemma lstrip_no_nl l : nl ∉ l → nl ∉ lstrip l.
Proof.
  intros Hl H. apply Hl. destruct (lstrip_spec l) as (k & Hk & _).
  rewrite Hk. apply elem_of_app. by right.
Qed.

Lemma str_split_lstrip_lines s :
  str_split nl (lstrip_lines s) = map lstrip (str_split nl s).
Proof.
  unfold lstrip_lines. apply str_split_join.
  - pose proof (str_split_ne nl s). by destruct (str_split nl s).
  - apply Forall_fmap. eapply Forall_impl; [apply str_split_no_nl|].
    intros l. apply lstrip_no_nl.
Qed.

(** ** [process_docstring] on plain text *)

Definition tab : ascii := "009"%char.

(** A line that starts with spaces or tabs followed by a hash and a space. *)
Definition indented_heading_line (l : str) : bool :=
  let run := take_run (λ c, chr_eqb c sp || chr_eqb c tab) l in
  negb (bool_decide (run = [])) && starts_with (lit "# ") (drop (length run) l).

Definition heading_after_blank_line : str := [nl; nl] ++ lit "# Title" ++ [nl].

(** C10, as stated, fails: a heading that follows an empty line has no
    indentation, and is rewritten as a section title all the same, which adds
    a line. *)
Lemma process_docstring_plain_counterexample :
  contains fence heading_after_blank_line = false
  ∧ re_search section_regex heading_after_blank_line = None
  ∧ Forall (λ l, indented_heading_line l = false) (str_split nl heading_after_blank_line)
  ∧ contains (lit ":param") heading_after_blank_line = false
  ∧ contains (lit ":return:") heading_after_blank_line = false
  ∧ process_docstring 1 heading_after_blank_line
    = Some ([nl; nl] ++ lit "__Title__" ++ [nl; nl])
  ∧ process_docstring 1 heading_after_blank_line
    ≠ Some (lstrip_lines heading_after_blank_line)
  ∧ length (str_split nl ([nl; nl] ++ lit "__Title__" ++ [nl; nl]))
    ≠ length (str_split nl heading_after_blank_line).
Proof.
  split_and!; try reflexivity; try (by vm_compute).
  apply (bool_decide_unpack _). by vm_compute.
Qed.

(** C10, amended. For a docstring that holds no fence, no heading in the
    sense of the pattern of the section titles (a newline, one or more
    whitespace characters, which may be newlines, a hash, a space, the rest of
    the line and its newline), no [:param] and no [:return:],
    [process_docstring] returns the docstring with the leading spaces of every
    line removed and nothing else changed: the lines of the result are the
    lines of the docstring, each without its leading run of spaces. *)
Theorem process_docstring_plain (fuel : nat) (docstring : str) :
  contains fence docstring = false →
  re_search title_regex docstring = None →
  contains (lit ":param") docstring = false →
  contains (lit ":return:") docstring = false →
  process_docstring fuel docstring = Some (lstrip_lines docstring)
  ∧ str_split nl (lstrip_lines docstring) = map lstrip (str_split nl docstring)
  ∧ Forall2 (λ out line, ∃ k : nat, line = replicate k sp ++ out ∧ head out ≠ Some sp)
      (str_split nl (lstrip_lines docstring)) (str_split nl docstring).
Proof.
  intros Hfence Htitle%re_search_none_inv Hparam Hreturn.
  split_and!.
  - unfold process_docstring. rewrite Hfence. cbn [mbind option_bind].
    assert (format_sections fuel docstring 0 [] = Some (docstring, [])) as ->.
    { assert (re_search section_regex docstring = None) as Hs.
      { apply re_search_none.
        eapply never_matches_impl; [apply section_regex_title_regex|done]. }
      destruct fuel; cbn [format_sections]; by rewrite drop_0, Hs. }
    cbn [mbind option_bind].
    rewrite (gsub_no_match title_sub).
    2:{ eapply never_matches_impl; [|done]. intros t Ht. unfold title_sub. by rewrite Ht. }
    unfold reinject_sections, reinject_code_blocks. cbn [foldl imap].
    f_equal. apply spektral_subs_unchanged.
    + apply contains_lstrip_lines; [by vm_compute|solve_lit|done].
    + apply contains_lstrip_lines; [by vm_compute|solve_lit|done].
  - apply str_split_lstrip_lines.
  - rewrite str_split_lstrip_lines. apply Forall2_fmap_l, Forall_Forall2_diag.
    apply Forall_forall. intros l _. apply lstrip_spec.
Qed.

Definition plain_docstring : str :=
  lit "Pads a jagged array." ++ [nl; nl] ++ lit "    See `one_hot`." ++ [nl] ++ lit "    ".

Lemma process_docstring_plain_witness :
  process_docstring 0 plain_docstring
  = Some (lit "Pads a jagged array." ++ [nl; nl] ++ lit "See `one_hot`." ++ [nl]).
Proof.
  apply (process_docstring_plain 0 plain_docstring); reflexivity.
Defined.

(** ** Cutting a code block out *)

Lemma gsub_aux_skip m count k s :
  gsub_aux m count k s = gsub_aux m count 0 (drop k s).
Proof.
  revert k. induction s as [|c s IH]; intros [|k]; try done.
  cbn [gsub_aux drop]. apply IH.
Qed.

Lemma starts_with_head_ne c sub d s : c ≠ d → starts_with (c :: sub) (d :: s) = false.
Proof. intros H. simpl. apply chr_eqb_false in H. by rewrite H. Qed.

Lemma str_find_cons sub c s :
  str_find sub (c :: s)
  = if starts_with sub (c :: s) then 0
    else let r := str_find sub s in if r <? 0 then -1 else r + 1.
Proof. done. Qed.

Lemma gsub_aux_cons m c s :
  gsub_aux m None 0 (c :: s)
  = match m (c :: s) with
    | Some (n, r) => r ++ gsub_aux m None (Nat.pred n) s
    | None => c :: gsub_aux m None 0 s
    end.
Proof. done. Qed.


Lemma str_replace_first_occurrence c sub new a b :
  c ∉ a → never_matches (literal_match (c :: sub) new) b →
  str_replace (c :: sub) new (a ++ (c :: sub) ++ b) = a ++ new ++ b.
Proof.
  intros Ha Hb. unfold str_replace, gsub.
  induction a as [|d a IH].
  - change ([] ++ (c :: sub) ++ b) with (c :: (sub ++ b)).
    rewrite gsub_aux_cons. unfold literal_match at 1.
    change (c :: sub ++ b) with ((c :: sub) ++ b). rewrite starts_with_app.
    rewrite gsub_aux_skip. cbn [length Nat.pred].
    rewrite drop_app_length. by rewrite gsub_aux_no_match.
  - apply not_elem_of_cons in Ha as [Hd Ha].
    change ((d :: a) ++ (c :: sub) ++ b) with (d :: (a ++ (c :: sub) ++ b)).
    rewrite gsub_aux_cons.
    unfold literal_match at 1. rewrite starts_with_head_ne by done.
    by rewrite IH.
Qed.




Lemma slice_tail (A : Type) (x : A) (xs : list A) :
  slice (Some 1) None (x :: xs) = xs.
Proof. change 1 with (Z.of_nat 1). by rewrite slice_from. Qed.

Lemma str_join_lines_no_nl sep ls : Forall (λ l, sep ∉ l) ls → ls ≠ [] →
  str_split sep (str_join [sep] ls) = ls.
Proof. intros. by apply str_split_join. Qed.







Lemma starts_with_fence_head c s : c ≠ "`"%char → starts_with fence (c :: s) = false.
Proof. intros H. apply starts_with_head_ne. by apply not_eq_sym. Qed.








Lemma occurs_nil_r sub : sub ≠ [] → ¬ occurs sub [].
Proof. intros Hne [k Hk]. rewrite drop_nil in Hk. by apply starts_with_nil_r in Hk. Qed.







(** ** [process_docstring] on one fenced code block *)






(** * The file system and the page loop *)

(** ** Paths and files *)

Inductive entry :=
  | File (content : str)
  | Dir.

Global Instance entry_eq_dec : EqDecision entry.
Proof. solve_decision. Defined.

(** A path is the list of its components, relative to the working directory
    [[]]; an absolute path starts with the component [/]. *)
Definition slash : ascii := "/"%char.

Definition step_component (stack : list str) (c : str) : list str :=
  if str_eqb c [] || str_eqb c (lit ".") then stack
  else if str_eqb c (lit "..") then
    match last stack with
    | None => stack ++ [c]
    | Some l =>
      if str_eqb l (lit "..") then stack ++ [c]
      else if str_eqb l [slash] then stack
      else removelast stack
    end
  else stack ++ [c].

Definition parse_path (p : str) : list str :=
  foldl step_component (if starts_with [slash] p then [[slash]] else [])
        (str_split slash p).

Fixpoint dropwhile_chr (p : ascii → bool) (s : str) : str :=
  match s with
  | c :: s' => if p c then dropwhile_chr p s' else s
  | [] => []
  end.

(** [os.path.join(a, b)] *)
Definition os_path_join (a b : str) : str :=
  if starts_with [slash] b then b
  else if bool_decide (a = []) || bool_decide (last a = Some slash) then a ++ b
  else a ++ [slash] ++ b.

(** [os.path.dirname(p)] *)
Definition os_path_dirname (p : str) : str :=
  let head := reverse (dropwhile_chr (λ c, negb (chr_eqb c slash)) (reverse p)) in
  if bool_decide (head = []) || forallb (λ c, chr_eqb c slash) head then head
  else reverse (dropwhile_chr (λ c, chr_eqb c slash) (reverse head)).

Definition fs_exists (fs : gmap (list str) entry) (p : list str) : bool :=
  bool_decide (p = []) || bool_decide (is_Some (fs !! p)).

Definition fs_isdir (fs : gmap (list str) entry) (p : list str) : bool :=
  bool_decide (p = []) || bool_decide (fs !! p = Some Dir).

(** [shutil.rmtree(p)] *)
Definition rmtree (fs : gmap (list str) entry) (p : list str)
    : result (gmap (list str) entry) :=
  if fs_isdir fs p then Ok (filter (λ kv, ¬ p `prefix_of` kv.1) fs)
  else Raise OSError.

(** The directories [done ++ [c1]], [done ++ [c1; c2]], ... of
    [os.makedirs]: the missing ones are created, the last one must be. *)
Fixpoint mkdir_chain (fs : gmap (list str) entry) (done todo : list str)
    : result (gmap (list str) entry) :=
  match todo with
  | [] => Ok fs
  | c :: rest =>
    let d := done ++ [c] in
    match fs !! d with
    | None => mkdir_chain (<[d := Dir]> fs) d rest
    | Some Dir => if bool_decide (rest = []) then Raise OSError else mkdir_chain fs d rest
    | Some (File _) => Raise OSError
    end
  end.

(** [os.makedirs(p)] *)
Definition makedirs (fs : gmap (list str) entry) (p : list str)
    : result (gmap (list str) entry) :=
  match p with
  | [] => Raise OSError
  | _ :: _ => mkdir_chain fs [] p
  end.

(** [if not os.path.exists(p): os.makedirs(p)] *)
Definition ensure_dir (fs : gmap (list str) entry) (p : str)
    : result (gmap (list str) entry) :=
  if fs_exists fs (parse_path p) then Ok fs else makedirs fs (parse_path p).

(** [read_file(path)] *)
Definition read_file (fs : gmap (list str) entry) (p : list str) : result str :=
  match fs !! p with
  | Some (File content) => Ok content
  | _ => Raise OSError
  end.

(** [open(path, "w")] followed by [write(content)] *)
Definition write_file (fs : gmap (list str) entry) (p : list str) (content : str)
    : result (gmap (list str) entry) :=
  if fs_isdir fs (removelast p) && negb (bool_decide (p = []))
     && negb (bool_decide (fs !! p = Some Dir))
  then Ok (<[p := File content]> fs)
  else Raise OSError.

(** [shutil.copy(src, dst)] *)
Definition copy (fs : gmap (list str) entry) (src dst : list str)
    : result (gmap (list str) entry) :=
  let dst := if fs_isdir fs dst then dst ++ option_list (last src) else dst in
  content ← read_file fs src;
  if bool_decide (src = dst) then Raise OSError else write_file fs dst content.

(** The name of [k] when it lies directly in the directory [d]. *)
Definition child_name (d k : list str) : option str :=
  if bool_decide (removelast k = d ∧ k ≠ []) then last k else None.

(** The entries of a directory. *)
Definition listdir (fs : gmap (list str) entry) (d : list str) : list (str * entry) :=
  omap (λ ke, (λ name, (name, ke.2)) <$> child_name d ke.1) (map_to_list fs).

Definition is_file (e : entry) : bool := match e with File _ => true | Dir => false end.

Definition file_names (es : list (str * entry)) : list str :=
  (filter (λ ne, is_file ne.2 = true) es).*1.

Definition dir_names (es : list (str * entry)) : list str :=
  (filter (λ ne, is_file ne.2 = false) es).*1.

Definition shorter (a b : list str) : Prop := (length a ≤ length b)%nat.

Global Instance shorter_dec : RelDecision shorter.
Proof. intros a b. unfold shorter. apply _. Defined.

(** [os.walk(top)]: the directory [top] and the directories below it, each
    with its text, the names of its subdirectories and the names of its files;
    a directory comes after the ones it lies in. *)
Definition walk (fs : gmap (list str) entry) (top : str)
    : list (str * list str * list str) :=
  let d0 := parse_path top in
  if fs_isdir fs d0 then
    let below :=
      filter (λ k, d0 `prefix_of` k ∧ k ≠ d0)
             (filter (λ ke, ke.2 = Dir) (map_to_list fs)).*1 in
    map (λ d, (top ++ concat (map (λ c, slash :: c) (drop (length d0) d)),
               dir_names (listdir fs d), file_names (listdir fs d)))
        (d0 :: merge_sort shorter below)
  else [].

(** [glob.glob("./img/*.svg")] *)
Definition glob_img_svg (fs : gmap (list str) entry) : list str :=
  map (λ name, lit "./img/" ++ name)
      (filter (λ name, slice (Some (-4)) None name = lit ".svg"
                       ∧ head name ≠ Some "."%char)
              (listdir fs [lit "img"]).*1).

(** ** The template copy (lines 420-433) *)

(** One file of the walk: the directory of the copy is created when it is
    missing, and a Markdown file is copied. *)
Definition populate_file (fs : gmap (list str) entry) (subdir fname : str)
    : result (gmap (list str) entry) :=
  let new_subdir := str_replace (lit "templates") (lit "sources") subdir in
  fs ← ensure_dir fs new_subdir;
  if str_eqb (slice (Some (-3)) None fname) (lit ".md") then
    let fpath := os_path_join subdir fname in
    let new_fpath := str_replace (lit "templates") (lit "sources") fpath in
    copy fs (parse_path fpath) (parse_path new_fpath)
  else Ok fs.

Fixpoint populate_files (fs : gmap (list str) entry) (items : list (str * str))
    : result (gmap (list str) entry) :=
  match items with
  | [] => Ok fs
  | (subdir, fname) :: rest =>
    fs ← populate_file fs subdir fname;
    populate_files fs rest
  end.

(** The pairs of a directory text and a file name, in the order of the two
    nested loops. *)
Definition walk_files (w : list (str * list str * list str)) : list (str * str) :=
  concat (map (λ t, map (pair t.1.1) t.2) w).

Definition populate_sources (fs : gmap (list str) entry)
    : result (gmap (list str) entry) :=
  fs ← (if fs_exists fs [lit "sources"] then rmtree fs [lit "sources"] else Ok fs);
  populate_files fs (walk_files (walk fs (lit "templates"))).

(** ** Rendering *)

Definition ROOT : str := lit "https://graphneural.network/".

Definition EXCLUDE : list str := [].

Definition dquote : ascii := ascii_of_nat 34.

Definition class_to_source_link (cls : class) : result str :=
  let module_name := clean_module_name (cls_module cls) in
  let path := str_replace (lit ".") (lit "/") module_name ++ lit ".py" in
  line ← cls_source_line cls;
  let link := lit "https://github.com/danielegrattarola/" ++ lit "spektral/blob/master/"
              ++ path ++ lit "#L" ++ str_of_nat line in
  Ok (lit "[[source]](" ++ link ++ lit ")").

Definition code_snippet (snippet : str) : str :=
  lit "```python" ++ [nl] ++ snippet ++ [nl] ++ lit "```" ++ [nl].

(** [subblocks.append(process_docstring(docstring))] under [if docstring:] *)
Definition docstring_blocks (fuel : nat) (doc : option str) : result (list str) :=
  match doc with
  | None | Some [] => Ok []
  | Some docstring =>
    match process_docstring fuel docstring with
    | Some text => Ok [text]
    | None => OutOfFuel
    end
  end.

Definition render_function (fuel : nat) (function : callable) (method : bool)
    : result str :=
  signature ← get_function_signature function method;
  let signature :=
    if method
    then str_replace (clean_module_name (fn_module function) ++ lit ".") [] signature
    else signature in
  doc ← docstring_blocks fuel (fn_doc function);
  Ok (str_join [nl; nl]
        ([lit "### " ++ fn_name function ++ [nl]; code_snippet signature] ++ doc)).

Fixpoint mapM_result {A B} (f : A → result B) (l : list A) : result (list B) :=
  match l with
  | [] => Ok []
  | x :: rest =>
    y ← f x;
    ys ← mapM_result f rest;
    Ok (y :: ys)
  end.

(** A method named in the manifest: a name to look up on the class, or the
    method itself. *)
Inductive method_item :=
  | MName (name : str)
  | MObj (method : callable).

(** The second component of a manifest entry: a list or tuple of methods, or
    any other value, of which only the truth value matters. *)
Inductive methods_spec :=
  | MList (items : list method_item)
  | MOther (truthy : bool).

Definition methods_truthy (methods : methods_spec) : bool :=
  match methods with
  | MList items => negb (bool_decide (items = []))
  | MOther truthy => truthy
  end.

Fixpoint getattr {A} (attrs : list (str * A)) (name : str) : result A :=
  match attrs with
  | [] => Raise AttributeError
  | (n, v) :: rest => if str_eqb n name then Ok v else getattr rest name
  end.

(** [s[0] == "_"] *)
Definition starts_with_underscore (s : str) : result bool :=
  match s with
  | [] => Raise IndexError
  | c :: _ => Ok (chr_eqb c "_"%char)
  end.

Definition collect_class_methods (cls : class) (methods : methods_spec)
    : result (list callable) :=
  match methods with
  | MList items =>
    mapM_result (λ m, match m with
                      | MName name => getattr (cls_attrs cls) name
                      | MObj method => Ok method
                      end) items
  | MOther _ =>
    kept ← mapM_result
      (λ nm, private ← starts_with_underscore (fn_name nm.2);
             Ok (if private || bool_decide (fn_name nm.2 ∈ EXCLUDE) then [] else [nm.2]))
      (cls_routines cls);
    Ok (concat kept)
  end.

(** The body of the loop over the classes of a page (lines 503-528). *)
Definition render_class (fuel : nat) (element : class * methods_spec) : result str :=
  let cls := element.1 in
  signature ← get_class_signature cls;
  link ← class_to_source_link cls;
  let span := lit "<span style=" ++ [dquote] ++ lit "float:right;" ++ [dquote] ++ lit ">"
              ++ link ++ lit "</span>" in
  let header :=
    if methods_truthy element.2 then lit "## " ++ cls_name cls ++ lit " class" ++ [nl]
    else lit "### " ++ cls_name cls ++ [nl] in
  doc ← docstring_blocks fuel (cls_doc cls);
  methods ← collect_class_methods cls element.2;
  rendered ← mapM_result (λ method, render_function fuel method true) methods;
  let methods_blocks :=
    match methods with
    | [] => []
    | _ :: _ =>
      [nl :: lit "---"; lit "## " ++ cls_name cls ++ lit " methods" ++ [nl];
       str_join ([nl] ++ lit "---" ++ [nl]) rendered]
    end in
  Ok (str_join [nl] ([span; header; code_snippet signature] ++ doc ++ methods_blocks)).

(** ** The manifest *)

Inductive member :=
  | MemClass (cls : class)
  | MemFunction (function : callable)
  | MemOther.

Record module := {
  mod_name : str;
  (** [dir(module)] with what [getattr] returns for each name *)
  mod_dir : list (str * member)
}.

(** An entry of the list of classes: a class, or a class with its methods. *)
Inductive class_entry :=
  | CPlain (cls : class)
  | CWith (cls : class) (methods : methods_spec).

Record page_data := {
  page : str;
  classes : list class_entry;
  methods : list callable;
  functions : list callable;
  all_module_classes : list module;
  all_module_methods : list module;
  all_module_functions : list module
}.

(** [module_data.sort(key=lambda x: id(x))], a stable sort. *)
Fixpoint insert_by {A} (key : A → nat) (x : A) (l : list A) : list A :=
  match l with
  | [] => [x]
  | y :: rest => if (key x <=? key y)%nat then x :: l else y :: insert_by key x rest
  end.

Definition sort_by {A} (key : A → nat) (l : list A) : list A :=
  foldr (insert_by key) [] l.

(** The loop over [dir(module)] (lines 470-483): [select] keeps the members of
    the requested type. *)
Fixpoint scan_module {A} (select : member → option A) (module_of : A → str)
    (ref_of : A → nat) (name : str) (members : list (str * member))
    (module_data : list A) : result (list A) :=
  match members with
  | [] => Ok module_data
  | (n, m) :: rest =>
    private ← starts_with_underscore n;
    if private || bool_decide (n ∈ EXCLUDE) then
      scan_module select module_of ref_of name rest module_data
    else
      match select m with
      | Some instance =>
        if contains name (module_of instance)
           && negb (bool_decide (ref_of instance ∈ map ref_of module_data))
        then scan_module select module_of ref_of name rest (module_data ++ [instance])
        else scan_module select module_of ref_of name rest module_data
      | None => scan_module select module_of ref_of name rest module_data
      end
  end.

(** [read_page_data]: the listed objects, then, module by module, the
    selected members in the order of their [id]. *)
Fixpoint read_modules {A} (ids : nat → nat) (select : member → option A)
    (module_of : A → str) (ref_of : A → nat) (modules : list module) : result (list A) :=
  match modules with
  | [] => Ok []
  | m :: rest =>
    module_data ← scan_module select module_of ref_of (mod_name m) (mod_dir m) [];
    more ← read_modules ids select module_of ref_of rest;
    Ok (sort_by (λ x, ids (ref_of x)) module_data ++ more)
  end.

Definition entry_class (e : class_entry) : class * methods_spec :=
  match e with
  | CPlain cls => (cls, MList [])
  | CWith cls methods => (cls, methods)
  end.

Definition read_page_classes (ids : nat → nat) (p : page_data)
    : result (list (class * methods_spec)) :=
  found ← read_modules ids (λ m, match m with MemClass c => Some c | _ => None end)
            cls_module cls_ref (all_module_classes p);
  Ok (map entry_class (classes p) ++ map (λ c, (c, MList [])) found).

Definition read_page_methods (ids : nat → nat) (p : page_data) : result (list callable) :=
  found ← read_modules ids (λ _, None) fn_module fn_ref (all_module_methods p);
  Ok (methods p ++ found).

Definition read_page_functions (ids : nat → nat) (p : page_data) : result (list callable) :=
  found ← read_modules ids (λ m, match m with MemFunction f => Some f | _ => None end)
            fn_module fn_ref (all_module_functions p);
  Ok (functions p ++ found).

(** ** The page loop (lines 498-591) *)

Definition placeholder : str := lit "{{autogenerated}}".

(** Lines 499-544: the Markdown of a page. *)
Definition page_markdown (fuel : nat) (ids : nat → nat) (p : page_data) : result str :=
  cs ← read_page_classes ids p;
  blocks_classes ← mapM_result (render_class fuel) cs;
  ms ← read_page_methods ids p;
  blocks_methods ← mapM_result (λ method, render_function fuel method true) ms;
  fs ← read_page_functions ids p;
  blocks_functions ← mapM_result (λ function, render_function fuel function false) fs;
  Ok (str_join ([nl] ++ lit "----" ++ [nl; nl])
        (blocks_classes ++ blocks_methods ++ blocks_functions)).

Definition missing_tag_message (path : str) : str :=
  lit "Template found for " ++ path ++ lit " but missing {{autogenerated}}" ++ lit " tag.".

(** Lines 548-563: the page is inserted into its template, or created. *)
Definition write_page (fs : gmap (list str) entry) (page_name mkdown : str)
    : result (gmap (list str) entry) :=
  let path := os_path_join (lit "sources") page_name in
  mkdown ←
    (if fs_exists fs (parse_path path) then
       template ← read_file fs (parse_path path);
       if contains placeholder template
       then Ok (str_replace_first placeholder mkdown template)
       else Raise (AssertionError (missing_tag_message path))
     else Ok mkdown);
  fs ← ensure_dir fs (os_path_dirname path);
  write_file fs (parse_path path) mkdown.

Fixpoint copy_all (fs : gmap (list str) entry) (files : list str) (dst : str)
    : result (gmap (list str) entry) :=
  match files with
  | [] => Ok fs
  | file :: rest =>
    fs ← copy fs (parse_path file) (parse_path dst);
    copy_all fs rest dst
  end.

(** Lines 565-592: the static files, copied at every page. *)
Definition copy_assets (fs : gmap (list str) entry) : result (gmap (list str) entry) :=
  fs ← ensure_dir fs (lit "sources/stylesheets/");
  fs ← copy fs (parse_path (lit "./stylesheets/extra.css"))
               (parse_path (lit "./sources/stylesheets/extra.css"));
  fs ← ensure_dir fs (lit "sources/js/");
  fs ← copy fs (parse_path (lit "./js/macros.js")) (parse_path (lit "./sources/js/macros.js"));
  fs ← ensure_dir fs (lit "sources/img/");
  fs ← copy_all fs (glob_img_svg fs) (lit "./sources/img/");
  fs ← ensure_dir fs (lit "sources/custom_theme/img/");
  fs ← copy fs (parse_path (lit "./img/favicon.ico"))
               (parse_path (lit "./sources/custom_theme/img/favicon.ico"));
  fs ← ensure_dir fs (lit "sources/.well-known/");
  fs ← copy fs (parse_path (lit "./templates/brave-rewards-verification.txt"))
               (parse_path (lit "./sources/.well-known/brave-rewards-verification.txt"));
  copy fs (parse_path (lit "./templates/google8a76765aa72fa8c1.html"))
          (parse_path (lit "./sources/google8a76765aa72fa8c1.html")).

Definition generate_page (fuel : nat) (ids : nat → nat) (fs : gmap (list str) entry)
    (p : page_data) : result (gmap (list str) entry) :=
  mkdown ← page_markdown fuel ids p;
  fs ← write_page fs (page p) mkdown;
  copy_assets fs.

Fixpoint generate_pages (fuel : nat) (ids : nat → nat) (fs : gmap (list str) entry)
    (pages : list page_data) : result (gmap (list str) entry) :=
  match pages with
  | [] => Ok fs
  | p :: rest =>
    fs ← generate_page fuel ids fs p;
    generate_pages fuel ids fs rest
  end.

(** Lines 490-495: the home page. *)
Definition write_index (fs : gmap (list str) entry) : result (gmap (list str) entry) :=
  readme ← read_file fs (parse_path (lit "../README.md"));
  index ← read_file fs (parse_path (lit "templates/index.md"));
  let index := str_replace placeholder readme index in
  write_file fs (parse_path (lit "sources/index.md")) index.

(** The script: the template copy at module level, then the main block. *)
Definition main (fuel : nat) (ids : nat → nat) (pages : list page_data)
    (fs : gmap (list str) entry) : result (gmap (list str) entry) :=
  fs ← populate_sources fs;
  fs ← write_index fs;
  generate_pages fuel ids fs pages.

(** ** The placeholder of a page *)

Lemma gsub_aux_exhausted m s : gsub_aux m (Some 0%nat) 0 s = s.
Proof. by destruct s. Qed.

Lemma starts_with_split sub s :
  starts_with sub s = true → s = sub ++ drop (length sub) s.
Proof.
  revert s. induction sub as [|c sub IH]; intros [|d s]; simpl; try done.
  intros [->%chr_eqb_true H]%andb_true_iff. f_equal. by apply IH.
Qed.

Lemma str_find_occurrence sub s k :
  sub ≠ [] → str_find sub s = Z.of_nat k →
  s = take k s ++ sub ++ drop (k + length sub) s.
Proof.
  intros Hne. revert k. induction s as [|c s IH]; intros k.
  - simpl. destruct (starts_with sub []) eqn:E; [|lia].
    by apply starts_with_nil_r in E.
  - rewrite str_find_cons. destruct (starts_with sub (c :: s)) eqn:E.
    + intros Hk. assert (k = 0%nat) as -> by lia. by apply starts_with_split.
    + cbv zeta. pose proof (str_find_range sub s).
      destruct (Z.ltb_spec (str_find sub s) 0); [lia|]. intros Hk.
      destruct k as [|k]; [lia|]. simpl. f_equal. apply IH. lia.
Qed.

Lemma gsub_first_spec sub new s k :
  sub ≠ [] → str_find sub s = Z.of_nat k →
  gsub_aux (literal_match sub new) (Some 1%nat) 0 s
  = take k s ++ new ++ drop (k + length sub) s.
Proof.
  intros Hne. revert k. induction s as [|c s IH]; intros k.
  - simpl. destruct (starts_with sub []) eqn:E; [|lia].
    by apply starts_with_nil_r in E.
  - rewrite str_find_cons. cbn [gsub_aux]. unfold literal_match at 1.
    destruct (starts_with sub (c :: s)) eqn:E.
    + intros Hk. assert (k = 0%nat) as -> by lia.
      cbn [fmap option_fmap option_map pred]. rewrite gsub_aux_skip, gsub_aux_exhausted.
      by destruct sub.
    + cbv zeta. pose proof (str_find_range sub s).
      destruct (Z.ltb_spec (str_find sub s) 0); [lia|]. intros Hk.
      destruct k as [|k]; [lia|]. simpl. f_equal. apply IH. lia.
Qed.

Lemma str_replace_first_spec sub new s k :
  sub ≠ [] → str_find sub s = Z.of_nat k →
  str_replace_first sub new s = take k s ++ new ++ drop (k + length sub) s.
Proof.
  intros Hne Hk. unfold str_replace_first, gsub. destruct sub as [|c sub]; [done|].
  by apply gsub_first_spec.
Qed.

Lemma contains_find sub s :
  contains sub s = true → ∃ k : nat, str_find sub s = Z.of_nat k.
Proof.
  unfold contains. intros H%Z.leb_le. exists (Z.to_nat (str_find sub s)). lia.
Qed.

Lemma result_bind_ok {A B} (x : result A) (f : A → result B) a :
  x = Ok a → x ≫= f = f a.
Proof. by intros ->. Qed.

Lemma generate_pages_app fuel ids fs pages1 pages2 :
  generate_pages fuel ids fs (pages1 ++ pages2)
  = fs' ← generate_pages fuel ids fs pages1; generate_pages fuel ids fs' pages2.
Proof.
  revert fs. induction pages1 as [|p pages1 IH]; intros fs; [done|].
  cbn [generate_pages app]. destruct (generate_page fuel ids fs p); [|done..].
  apply IH.
Qed.

Lemma main_app fuel ids pages1 pages2 fs0 :
  main fuel ids (pages1 ++ pages2) fs0
  = fs ← main fuel ids pages1 fs0; generate_pages fuel ids fs pages2.
Proof.
  unfold main. destruct (populate_sources fs0); [|done..]. cbn [mbind result_bind].
  destruct (write_index a); [|done..]. cbn [mbind result_bind].
  apply generate_pages_app.
Qed.

(** C3. When the target of a page exists and holds no placeholder, writing
    the page raises the assertion error whose message names the path, and the
    run that reaches this page ends with that error whatever pages follow.
    When the placeholder is there, its first occurrence, and only that one, is
    replaced with the generated content. *)
Theorem write_page_placeholder (fs : gmap (list str) entry) (page_name mkdown template : str) :
  let path := os_path_join (lit "sources") page_name in
  fs !! parse_path path = Some (File template) →
  (contains placeholder template = false →
     write_page fs page_name mkdown = Raise (AssertionError (missing_tag_message path))
     ∧ occurs path (missing_tag_message path)
     ∧ ∀ fuel ids done p rest fs0,
         main fuel ids done fs0 = Ok fs → page p = page_name →
         page_markdown fuel ids p = Ok mkdown →
         main fuel ids (done ++ p :: rest) fs0
         = Raise (AssertionError (missing_tag_message path)))
  ∧ (contains placeholder template = true →
     ∃ before after,
       template = before ++ placeholder ++ after
       ∧ str_find placeholder template = Z.of_nat (length before)
       ∧ write_page fs page_name mkdown
         = (fs' ← ensure_dir fs (os_path_dirname path);
            write_file fs' (parse_path path) (before ++ mkdown ++ after))).
Proof.
  intros path Hfile. split.
  - intros Hno.
    assert (write_page fs page_name mkdown
            = Raise (AssertionError (missing_tag_message path))) as Hraise.
    { unfold write_page. fold path. unfold fs_exists, read_file. rewrite Hfile.
      rewrite (bool_decide_eq_true_2 (is_Some _)) by eauto.
      rewrite orb_true_r. cbn [mbind result_bind]. by rewrite Hno. }
    split_and!; [done| |].
    + apply occurs_app_r, occurs_app_l. exists 0%nat.
      rewrite <- (app_nil_r path) at 2. apply starts_with_app.
    + intros fuel ids done p rest fs0 Hmain Hp Hmd.
      rewrite main_app, Hmain. cbn [mbind result_bind generate_pages].
      unfold generate_page. rewrite Hmd. cbn [mbind result_bind].
      by rewrite Hp, Hraise.
  - intros Hyes. destruct (contains_find _ _ Hyes) as [k Hk].
    pose proof (str_find_occurrence placeholder template k ltac:(by vm_compute) Hk) as Hsplit.
    assert (k ≤ length template)%nat as Hle.
    { destruct (decide (k ≤ length template)%nat); [done|].
      apply (f_equal length) in Hsplit. rewrite !length_app, length_take in Hsplit.
      change (length placeholder) with 17%nat in Hsplit. lia. }
    exists (take k template), (drop (k + length placeholder) template).
    split_and!; [done|by rewrite length_take_le|].
    unfold write_page. fold path. unfold fs_exists, read_file. rewrite Hfile.
    rewrite (bool_decide_eq_true_2 (is_Some _)) by eauto.
    rewrite orb_true_r. cbn [mbind result_bind]. rewrite Hyes.
    cbn [mbind result_bind].
    by rewrite (str_replace_first_spec _ _ _ k).
Qed.

(** The content of the file [p] after the computation [r]. *)
Definition read_back (r : result (gmap (list str) entry)) (p : list str) : result str :=
  fs ← r; read_file fs p.

Definition sources_with_page (template : str) : gmap (list str) entry :=
  <[[lit "sources"; lit "api.md"] := File template]> {[ [lit "sources"] := Dir ]}.

Lemma write_page_placeholder_witness :
  write_page (sources_with_page (lit "# API")) (lit "api.md") (lit "generated")
  = Raise (AssertionError
             (lit "Template found for sources/api.md but missing {{autogenerated}} tag."))
  ∧ read_back (write_page (sources_with_page (lit "a {{autogenerated}} b {{autogenerated}}"))
                 (lit "api.md") (lit "generated"))
      [lit "sources"; lit "api.md"]
    = Ok (lit "a generated b {{autogenerated}}").
Proof.
  split.
  - destruct (write_page_placeholder (sources_with_page (lit "# API")) (lit "api.md")
                (lit "generated") (lit "# API")) as [H _]; [reflexivity|].
    destruct H as [H _]; [reflexivity|]. exact H.
  - destruct (write_page_placeholder
                (sources_with_page (lit "a {{autogenerated}} b {{autogenerated}}"))
                (lit "api.md") (lit "generated")
                (lit "a {{autogenerated}} b {{autogenerated}}")) as [_ H]; [reflexivity|].
    destruct H as (before & after & Hsplit & Hfind & H); [reflexivity|].
    assert (str_find placeholder (lit "a {{autogenerated}} b {{autogenerated}}") = 2)
      as Hat by reflexivity.
    assert (length before = 2%nat) as Hlen by lia.
    assert (before = lit "a ") as ->.
    { apply (f_equal (take 2)) in Hsplit. by rewrite take_app_length' in Hsplit. }
    apply (f_equal (drop 19)) in Hsplit.
    rewrite app_assoc, drop_app_length' in Hsplit by done.
    rewrite H, <- Hsplit. vm_compute. reflexivity.
Defined.

(** ** Paths as text *)

(** A component as a directory lists it. *)
Definition valid_name (c : str) : Prop :=
  c ≠ [] ∧ c ≠ lit "." ∧ c ≠ lit ".." ∧ slash ∉ c.

(** The text of the path [root :: rel], as [os.walk] and [os.path.join]
    build it. *)
Definition text_of (root : str) (rel : list str) : str :=
  root ++ concat (map (λ c, slash :: c) rel).

Lemma text_of_cons root c rel : text_of root (c :: rel) = root ++ slash :: text_of c rel.
Proof. done. Qed.

Lemma text_of_snoc root rel c :
  text_of root (rel ++ [c]) = text_of root rel ++ slash :: c.
Proof.
  unfold text_of. rewrite map_app, concat_app. simpl. by rewrite app_nil_r, <- app_assoc.
Qed.

Lemma str_split_text_of root rel :
  slash ∉ root → Forall (λ c, slash ∉ c) rel →
  str_split slash (text_of root rel) = root :: rel.
Proof.
  intros Hroot Hrel. revert root Hroot. induction Hrel as [|c rel Hc _ IH]; intros root Hroot.
  - unfold text_of. simpl. rewrite app_nil_r. by apply str_split_line.
  - rewrite text_of_cons, str_split_app_line by done. by rewrite IH.
Qed.

Lemma step_component_valid stack c :
  valid_name c → step_component stack c = stack ++ [c].
Proof.
  intros (H1 & H2 & H3 & _). unfold step_component.
  apply str_eqb_false in H1, H2, H3. by rewrite H1, H2, H3.
Qed.

Lemma foldl_step_component_valid stack cs :
  Forall valid_name cs → foldl step_component stack cs = stack ++ cs.
Proof.
  intros Hcs. revert stack. induction Hcs as [|c cs Hc _ IH]; intros stack; simpl.
  - by rewrite app_nil_r.
  - rewrite step_component_valid by done. by rewrite IH, <- app_assoc.
Qed.

Lemma parse_path_text_of root rel :
  valid_name root → Forall valid_name rel → parse_path (text_of root rel) = root :: rel.
Proof.
  intros Hroot Hrel. unfold parse_path.
  rewrite str_split_text_of.
  - assert (starts_with [slash] (text_of root rel) = false) as ->.
    { destruct Hroot as (Hne & _ & _ & Hs). destruct root as [|c root]; [done|].
      apply not_elem_of_cons in Hs as [Hc _]. simpl.
      apply chr_eqb_false in Hc. by rewrite Hc. }
    by rewrite (foldl_step_component_valid [] (root :: rel)) by by constructor.
  - by destruct Hroot as (_ & _ & _ & ?).
  - eapply Forall_impl; [done|]. by intros c (_ & _ & _ & ?).
Qed.

(** A separator that [old] does not hold splits the replacement. *)
Lemma gsub_literal_sep old new c a b k :
  c ∉ old → old ≠ [] → (k ≤ length a)%nat →
  gsub_aux (literal_match old new) None k (a ++ c :: b)
  = gsub_aux (literal_match old new) None k a
    ++ c :: gsub_aux (literal_match old new) None 0 b.
Proof.
  intros Hc Hne. revert k. induction a as [|d a IH]; intros k Hk.
  - assert (k = 0%nat) as -> by (simpl in Hk; lia). cbn [app gsub_aux].
    unfold literal_match at 1. rewrite <- (app_nil_l (c :: b)).
    rewrite starts_with_sep by done. by destruct old.
  - destruct k as [|k].
    + cbn [app]. rewrite !gsub_aux_cons.
      assert (literal_match old new (d :: a ++ c :: b) = literal_match old new (d :: a))
        as -> by (unfold literal_match; by rewrite app_comm_cons, starts_with_sep).
      destruct (literal_match old new (d :: a)) as [[n r]|] eqn:Em.
      * unfold literal_match in Em.
        destruct (starts_with old (d :: a)) eqn:E; [|done]. injection Em as <- <-.
        rewrite IH; [by rewrite <- app_assoc|].
        apply starts_with_split in E. apply (f_equal length) in E.
        rewrite length_app in E. simpl in E. destruct old; [done|]. simpl in *. lia.
      * by rewrite IH by lia.
    + cbn [app gsub_aux]. apply IH. simpl in Hk. lia.
Qed.

Lemma str_replace_sep old new c a b :
  c ∉ old → old ≠ [] →
  str_replace old new (a ++ c :: b) = str_replace old new a ++ c :: str_replace old new b.
Proof.
  intros Hc Hne. unfold str_replace, gsub. destruct old as [|o old]; [done|].
  apply gsub_literal_sep; [done..|lia].
Qed.

Lemma str_replace_absent old new s :
  old ≠ [] → ¬ occurs old s → str_replace old new s = s.
Proof.
  intros Hne Hs. unfold str_replace. destruct old as [|o old]; [done|].
  apply gsub_no_match. eapply guarded_never_matches; [apply literal_match_guarded|done].
Qed.

(** Names that do not hold the word [templates]. *)
Definition plain_name (c : str) : Prop := valid_name c ∧ ¬ occurs (lit "templates") c.

Lemma str_replace_plain_text c rel :
  ¬ occurs (lit "templates") c → Forall plain_name rel →
  str_replace (lit "templates") (lit "sources") (text_of c rel) = text_of c rel.
Proof.
  intros Hc Hrel. revert c Hc. induction Hrel as [|c' rel [_ Hc'] _ IH]; intros c Hc.
  - unfold text_of. cbn [map concat]. rewrite app_nil_r. by apply str_replace_absent.
  - rewrite text_of_cons, str_replace_sep; [|solve_lit|done].
    rewrite IH by done. by rewrite str_replace_absent.
Qed.

Lemma str_replace_text_of rel :
  Forall plain_name rel →
  str_replace (lit "templates") (lit "sources") (text_of (lit "templates") rel)
  = text_of (lit "sources") rel.
Proof.
  intros Hrel. destruct Hrel as [|c rel [_ Hc] Hrel]; [reflexivity|].
  rewrite !text_of_cons, str_replace_sep; [|solve_lit|done].
  rewrite str_replace_plain_text by done. reflexivity.
Qed.

(** ** File operations *)

Definition sources_dir : list str := [lit "sources"].
Definition templates_dir : list str := [lit "templates"].

Lemma prefix_snoc_cases (done k : list str) c rest :
  k ≠ done ++ [c] →
  (done `prefix_of` k ∧ k ≠ done ∧ k `prefix_of` done ++ c :: rest)
  ↔ ((done ++ [c]) `prefix_of` k ∧ k `prefix_of` (done ++ [c]) ++ rest).
Proof.
  intros Hk. rewrite <- (app_assoc done [c] rest). cbn [app]. split.
  - intros ([t ->] & Hne & Hp). split; [|done].
    apply prefix_app_inv in Hp.
    destruct t as [|c' t]; [by rewrite app_nil_r in Hne|].
    apply prefix_cons_inv_1 in Hp as ->.
    exists t. by rewrite <- app_assoc.
  - intros [Hp1 Hp2]. split_and!; [| |done].
    + etrans; [|done]. by apply prefix_app_r.
    + intros ->. destruct Hp1 as [t Ht]. apply (f_equal length) in Ht.
      rewrite !length_app in Ht. simpl in Ht. lia.
Qed.

Lemma mkdir_chain_spec (todo : list str) (fs : gmap (list str) entry) (done : list str) :
  (∀ q c, done `prefix_of` q → q ≠ done → q `prefix_of` done ++ todo →
          fs !! q ≠ Some (File c)) →
  (todo ≠ [] → fs !! (done ++ todo) = None) →
  ∃ fs', mkdir_chain fs done todo = Ok fs'
    ∧ ∀ k, fs' !! k
           = match fs !! k with
             | Some e => Some e
             | None =>
               if bool_decide (done `prefix_of` k ∧ k ≠ done ∧ k `prefix_of` done ++ todo)
               then Some Dir else None
             end.
Proof.
  revert fs done. induction todo as [|c rest IH]; intros fs done Hnf Hleaf.
  - exists fs. split; [done|]. intros k. destruct (fs !! k); [done|].
    rewrite bool_decide_eq_false_2; [done|]. rewrite app_nil_r.
    intros (H1 & H2 & H3). by apply H2, (anti_symm prefix).
  - cbn [mkdir_chain]. destruct (fs !! (done ++ [c])) as [[content|]|] eqn:Ed.
    + destruct (Hnf (done ++ [c]) content); [by apply prefix_app_r| | |done].
      * intros H. apply (f_equal length) in H. rewrite length_app in H. simpl in H. lia.
      * by apply prefix_app, prefix_cons, prefix_nil.
    + destruct (decide (rest = [])) as [->|Hrest].
      { rewrite Hleaf in Ed by done. done. }
      rewrite bool_decide_eq_false_2 by done.
      destruct (IH fs (done ++ [c])) as (fs' & -> & Hfs').
      * intros q c' Hq1 Hq Hq2. apply Hnf; [| |by rewrite <- app_assoc in Hq2].
        { etrans; [|done]. by apply prefix_app_r. }
        intros ->. apply prefix_length in Hq1. rewrite length_app in Hq1. simpl in Hq1. lia.
      * intros _. rewrite <- app_assoc. by apply Hleaf.
      * exists fs'. split; [done|]. intros k. rewrite Hfs'.
        destruct (fs !! k) eqn:Ek; [done|].
        assert (k ≠ done ++ [c]) as Hk by congruence.
        rewrite (bool_decide_ext _
                   (done `prefix_of` k ∧ k ≠ done ∧ k `prefix_of` done ++ c :: rest));
          [done|].
        rewrite (prefix_snoc_cases done k c rest Hk). tauto.
    + destruct (IH (<[done ++ [c] := Dir]> fs) (done ++ [c])) as (fs' & -> & Hfs').
      * intros q c' Hq1 Hq Hq2.
        rewrite lookup_insert_ne by done. apply Hnf; [| |by rewrite <- app_assoc in Hq2].
        { etrans; [|done]. by apply prefix_app_r. }
        intros ->. apply prefix_length in Hq1. rewrite length_app in Hq1. simpl in Hq1. lia.
      * intros Hrest. rewrite lookup_insert_ne.
        { rewrite <- app_assoc. by apply Hleaf. }
        intros H. apply (f_equal length) in H. rewrite !length_app in H.
        destruct rest; [done|]. simpl in H. lia.
      * exists fs'. split; [done|]. intros k. rewrite Hfs'.
        destruct (decide (k = done ++ [c])) as [->|Hk].
        { rewrite lookup_insert_eq, Ed. rewrite bool_decide_eq_true_2; [done|].
          split_and!; [by apply prefix_app_r| |by apply prefix_app, prefix_cons, prefix_nil].
          intros H. apply (f_equal length) in H. rewrite length_app in H. simpl in H. lia. }
        rewrite lookup_insert_ne by done. destruct (fs !! k) eqn:Ek; [done|].
        rewrite (bool_decide_ext _
                   (done `prefix_of` k ∧ k ≠ done ∧ k `prefix_of` done ++ c :: rest));
          [done|].
        rewrite (prefix_snoc_cases done k c rest Hk). tauto.
Qed.

(** ** The template copy, on paths *)

Definition is_md (fname : str) : Prop := slice (Some (-3)) None fname = lit ".md".

(** [populate_file] for the file [fname] of the directory [rel] of the
    templates. *)
Definition populate_item (fs : gmap (list str) entry) (it : list str * str)
    : result (gmap (list str) entry) :=
  fs ← (if fs_exists fs (sources_dir ++ it.1) then Ok fs
        else makedirs fs (sources_dir ++ it.1));
  if str_eqb (slice (Some (-3)) None it.2) (lit ".md")
  then copy fs (templates_dir ++ it.1 ++ [it.2]) (sources_dir ++ it.1 ++ [it.2])
  else Ok fs.

Fixpoint populate_items (fs : gmap (list str) entry) (items : list (list str * str))
    : result (gmap (list str) entry) :=
  match items with
  | [] => Ok fs
  | it :: rest =>
    fs ← populate_item fs it;
    populate_items fs rest
  end.

(** The file [it] of the templates, as the state [base] has it. *)
Definition template_file (base : gmap (list str) entry) (it : list str * str) : Prop :=
  ∃ c, base !! (templates_dir ++ it.1 ++ [it.2]) = Some (File c).

(** The output directory once the files [done] are handled. *)
Record populated (base : gmap (list str) entry) (done : list (list str * str))
    (fs : gmap (list str) entry) : Prop := {
  populated_items : Forall (template_file base) done;
  populated_frame : ∀ k, ¬ sources_dir `prefix_of` k → fs !! k = base !! k;
  populated_file : ∀ k c,
    fs !! k = Some (File c) → sources_dir `prefix_of` k →
    ∃ rel fname, (rel, fname) ∈ done ∧ is_md fname ∧ k = sources_dir ++ rel ++ [fname]
                 ∧ base !! (templates_dir ++ rel ++ [fname]) = Some (File c);
  populated_dir : ∀ k,
    fs !! k = Some Dir → sources_dir `prefix_of` k →
    ∃ rel fname, (rel, fname) ∈ done ∧ k `prefix_of` sources_dir ++ rel;
  populated_done_dir : ∀ rel fname,
    (rel, fname) ∈ done → fs !! (sources_dir ++ rel) = Some Dir;
  populated_done_md : ∀ rel fname c,
    (rel, fname) ∈ done → is_md fname →
    base !! (templates_dir ++ rel ++ [fname]) = Some (File c) →
    fs !! (sources_dir ++ rel ++ [fname]) = Some (File c)
}.

Section populate.
Context (base : gmap (list str) entry).
Hypothesis base_no_sources : ∀ k, sources_dir `prefix_of` k → base !! k = None.
Hypothesis base_wf : ∀ k q e,
  base !! k = Some e → templates_dir `prefix_of` q → q `prefix_of` k → q ≠ k →
  base !! q = Some Dir.

Lemma populated_start : populated base [] base.
Proof.
  split; try done.
  - intros k c Hk Hs. by rewrite base_no_sources in Hk.
  - intros k Hk Hs. by rewrite base_no_sources in Hk.
  - by intros rel fname ?%elem_of_nil.
  - by intros rel fname c ?%elem_of_nil.
Qed.

Lemma sources_prefix (k rel : list str) :
  k ≠ [] → k `prefix_of` sources_dir ++ rel → sources_dir `prefix_of` k.
Proof.
  intros Hk Hp. destruct k as [|c k]; [done|].
  apply prefix_cons_inv_1 in Hp as ->. apply prefix_cons, prefix_nil.
Qed.

Lemma on_path_is_dir rel fname p :
  template_file base (rel, fname) → p `prefix_of` rel →
  base !! (templates_dir ++ p) = Some Dir.
Proof.
  intros [c Hc] Hp. cbn [fst snd] in Hc. apply (base_wf _ _ _ Hc).
  - by apply prefix_app_r.
  - by apply prefix_app, prefix_app_r.
  - intros H. apply (f_equal length) in H. apply prefix_length in Hp.
    rewrite !length_app in H. simpl in H. lia.
Qed.

Lemma no_file_on_path done fs rel fname q c :
  populated base done fs → template_file base (rel, fname) →
  q ≠ [] → q `prefix_of` sources_dir ++ rel → fs !! q ≠ Some (File c).
Proof.
  intros Hinv Hit Hq Hp Hf.
  destruct (populated_file _ _ _ Hinv q c Hf) as (rel' & fname' & _ & _ & -> & Hb).
  { by eapply sources_prefix. }
  apply prefix_app_inv in Hp.
  by rewrite (on_path_is_dir rel fname (rel' ++ [fname'])) in Hb.
Qed.

Lemma target_not_dir done fs rel fname :
  populated base done fs → template_file base (rel, fname) →
  fs !! (sources_dir ++ rel ++ [fname]) ≠ Some Dir.
Proof.
  intros Hinv [c Hc] Hd. cbn [fst snd] in Hc.
  destruct (populated_dir _ _ _ Hinv _ Hd) as (rel' & fname' & Hin & Hp).
  { by apply prefix_app_r. }
  apply prefix_app_inv in Hp.
  pose proof (populated_items _ _ _ Hinv) as Hitems.
  rewrite Forall_forall in Hitems. specialize (Hitems _ Hin).
  by rewrite (on_path_is_dir rel' fname' (rel ++ [fname])) in Hc.
Qed.

Lemma ensure_sources_dir done fs rel fname :
  populated base done fs → template_file base (rel, fname) →
  ∃ fs_m,
    (if fs_exists fs (sources_dir ++ rel) then Ok fs
     else makedirs fs (sources_dir ++ rel)) = Ok fs_m
    ∧ fs_m !! (sources_dir ++ rel) = Some Dir
    ∧ ∀ k, fs_m !! k = fs !! k
           ∨ (fs !! k = None ∧ fs_m !! k = Some Dir ∧ k ≠ []
              ∧ k `prefix_of` sources_dir ++ rel).
Proof.
  intros Hinv Hit. unfold fs_exists.
  assert (sources_dir ++ rel ≠ []) as Hne by done.
  rewrite (bool_decide_eq_false_2 (sources_dir ++ rel = [])) by done. cbn [orb].
  destruct (fs !! (sources_dir ++ rel)) as [e|] eqn:Ee.
  - rewrite bool_decide_eq_true_2 by eauto.
    exists fs. split_and!; [done| |by left].
    destruct e as [c|]; [|done].
    by destruct (no_file_on_path done fs rel fname (sources_dir ++ rel) c).
  - rewrite bool_decide_eq_false_2 by (by intros [? ?]).
    assert (makedirs fs (sources_dir ++ rel) = mkdir_chain fs [] (sources_dir ++ rel))
      as -> by done.
    destruct (mkdir_chain_spec (sources_dir ++ rel) fs []) as (fs_m & Hm & Hfs).
    + intros q c _ Hq Hp. by eapply no_file_on_path.
    + done.
    + exists fs_m. split_and!; [done| |].
      * rewrite Hfs, Ee. rewrite bool_decide_eq_true_2; [done|].
        split_and!; [apply prefix_nil|done|done].
      * intros k. rewrite Hfs. destruct (fs !! k) eqn:Ek; [by left|].
        case_bool_decide as Hk; [|by left]. right. by destruct Hk as (_ & ? & ?).
Qed.

Lemma populate_item_populated done fs rel fname :
  populated base done fs → template_file base (rel, fname) →
  ∃ fs', populate_item fs (rel, fname) = Ok fs'
         ∧ populated base ((rel, fname) :: done) fs'.
Proof.
  intros Hinv Hit. unfold populate_item. cbn [fst snd].
  destruct (ensure_sources_dir done fs rel fname Hinv Hit) as (fs_m & -> & Hdir & Hfs_m).
  cbn [mbind result_bind].
  assert (∀ k, ¬ sources_dir `prefix_of` k → fs_m !! k = base !! k) as Hframe_m.
  { intros k Hk. destruct (Hfs_m k) as [->|(_ & _ & Hne & Hp)].
    - by apply (populated_frame _ _ _ Hinv).
    - destruct Hk. by eapply sources_prefix. }
  assert (∀ k c, fs_m !! k = Some (File c) → fs !! k = Some (File c)) as Hfile_m.
  { intros k c Hk. destruct (Hfs_m k) as [<-|(_ & Hd & _)]; [done|congruence]. }
  assert (fs_m !! (sources_dir ++ rel ++ [fname]) ≠ Some Dir) as Hnd.
  { destruct (Hfs_m (sources_dir ++ rel ++ [fname])) as [->|(_ & _ & _ & Hp)].
    - by eapply target_not_dir.
    - apply prefix_app_inv, prefix_length in Hp. rewrite length_app in Hp.
      simpl in Hp. lia. }
  assert (populated base ((rel, fname) :: done) fs_m
          ∨ is_md fname) as Hcases.
  { destruct (decide (is_md fname)); [by right|left]. split.
    - constructor; [done|apply (populated_items _ _ _ Hinv)].
    - done.
    - intros k c Hk Hs. apply Hfile_m in Hk.
      destruct (populated_file _ _ _ Hinv k c Hk Hs) as (r & f & ? & ? & ? & ?).
      exists r, f. split_and!; [by right|done..].
    - intros k Hk Hs. destruct (Hfs_m k) as [Heq|(_ & _ & _ & Hp)].
      + rewrite Heq in Hk.
        destruct (populated_dir _ _ _ Hinv k Hk Hs) as (r & f & ? & ?).
        exists r, f. split; [by right|done].
      + exists rel, fname. split; [by left|done].
    - intros r f [[= -> ->]|Hin]%elem_of_cons; [done|].
      pose proof (populated_done_dir _ _ _ Hinv r f Hin) as Hd.
      destruct (Hfs_m (sources_dir ++ r)) as [->|(? & _)]; [done|congruence].
    - intros r f c [[= -> ->]|Hin]%elem_of_cons Hmd Hb; [done|].
      pose proof (populated_done_md _ _ _ Hinv r f c Hin Hmd Hb) as Hd.
      destruct (Hfs_m (sources_dir ++ r ++ [f])) as [->|(? & _)]; [done|congruence]. }
  destruct (str_eqb (slice (Some (-3)) None fname) (lit ".md")) eqn:Emd.
  2:{ apply str_eqb_false in Emd. exists fs_m. split; [done|].
      by destruct Hcases as [?|?]. }
  apply str_eqb_true in Emd. clear Hcases.
  destruct Hit as [c Hc]. cbn [fst snd] in Hc.
  unfold copy, fs_isdir, read_file.
  rewrite (bool_decide_eq_false_2 (sources_dir ++ rel ++ [fname] = [])) by done.
  rewrite (bool_decide_eq_false_2 (fs_m !! _ = Some Dir)) by done. cbn [orb].
  rewrite Hframe_m, Hc.
  2:{ intros Hp. by apply prefix_cons_inv_1 in Hp. }
  cbn [mbind result_bind].
  rewrite bool_decide_eq_false_2 by done.
  unfold write_file, fs_isdir.
  rewrite (app_assoc sources_dir rel [fname]), removelast_last, <- app_assoc.
  rewrite (bool_decide_eq_true_2 (fs_m !! (sources_dir ++ rel) = Some Dir)) by done.
  rewrite orb_true_r.
  rewrite (bool_decide_eq_false_2 (sources_dir ++ rel ++ [fname] = [])) by done.
  rewrite (bool_decide_eq_false_2 (fs_m !! _ = Some Dir)) by done. cbn [negb andb].
  eexists. split; [done|].
  set (dst := sources_dir ++ rel ++ [fname]).
  split.
  - constructor; [by exists c|apply (populated_items _ _ _ Hinv)].
  - intros k Hk. rewrite lookup_insert_ne; [by apply Hframe_m|].
    intros <-. apply Hk. by apply prefix_app_r.
  - intros k c' Hk Hs. destruct (decide (k = dst)) as [->|Hne].
    + rewrite lookup_insert_eq in Hk. injection Hk as <-.
      exists rel, fname. split_and!; [by left|done..].
    + rewrite lookup_insert_ne in Hk by done. apply Hfile_m in Hk.
      destruct (populated_file _ _ _ Hinv k c' Hk Hs) as (r & f & ? & ? & ? & ?).
      exists r, f. split_and!; [by right|done..].
  - intros k Hk Hs. destruct (decide (k = dst)) as [->|Hne].
    { by rewrite lookup_insert_eq in Hk. }
    rewrite lookup_insert_ne in Hk by done.
    destruct (Hfs_m k) as [Heq|(_ & _ & _ & Hp)].
    + rewrite Heq in Hk.
      destruct (populated_dir _ _ _ Hinv k Hk Hs) as (r & f & ? & ?).
      exists r, f. split; [by right|done].
    + exists rel, fname. split; [by left|done].
  - intros r f Hin.
    assert (fs_m !! (sources_dir ++ r) = Some Dir) as Hd.
    { apply elem_of_cons in Hin as [[= -> ->]|Hin]; [done|].
      pose proof (populated_done_dir _ _ _ Hinv r f Hin) as Hd.
      destruct (Hfs_m (sources_dir ++ r)) as [->|(? & _)]; [done|congruence]. }
    rewrite lookup_insert_ne; [done|]. intros Heq. apply Hnd.
    unfold dst in Heq. by rewrite Heq.
  - intros r f c' Hin Hmd Hb.
    destruct (decide (sources_dir ++ r ++ [f] = dst)) as [Heq|Hne].
    + rewrite Heq, lookup_insert_eq. unfold dst in Heq.
      apply app_inv_head in Heq. rewrite Heq in Hb. congruence.
    + rewrite lookup_insert_ne by done.
      apply elem_of_cons in Hin as [[= -> ->]|Hin]; [done|].
      pose proof (populated_done_md _ _ _ Hinv r f c' Hin Hmd Hb) as Hd.
      destruct (Hfs_m (sources_dir ++ r ++ [f])) as [->|(? & _)]; [done|congruence].
Qed.

Lemma populate_items_populated items done fs :
  populated base done fs → Forall (template_file base) items →
  ∃ fs', populate_items fs items = Ok fs'
         ∧ populated base (reverse items ++ done) fs'.
Proof.
  intros Hinv Hitems. revert done fs Hinv.
  induction Hitems as [|[rel fname] items Hit _ IH]; intros done fs Hinv.
  - by exists fs.
  - cbn [populate_items].
    destruct (populate_item_populated done fs rel fname Hinv Hit) as (fs1 & -> & Hinv1).
    cbn [mbind result_bind].
    destruct (IH _ _ Hinv1) as (fs' & -> & Hinv').
    exists fs'. split; [done|]. by rewrite reverse_cons, <- app_assoc.
Qed.
End populate.

(** ** The template copy, from texts to paths *)

Lemma last_text_of root rel :
  valid_name root → Forall valid_name rel →
  text_of root rel ≠ [] ∧ last (text_of root rel) ≠ Some slash.
Proof.
  intros Hroot Hrel. revert root Hroot.
  induction Hrel as [|c rel Hc _ IH]; intros root Hroot.
  - unfold text_of. cbn [map concat]. rewrite app_nil_r.
    destruct Hroot as (Hne & _ & _ & Hs). split; [done|].
    intros H%last_Some_elem_of. done.
  - rewrite text_of_cons. destruct (IH c Hc) as [Hne Hlast]. split.
    + by destruct root.
    + rewrite last_app. destruct (text_of c rel) as [|x t] eqn:E; [done|].
      rewrite last_cons_cons. destruct (last (x :: t)) eqn:El; [done|].
      by apply last_None in El.
Qed.

Lemma os_path_join_text_of root rel fname :
  valid_name root → Forall valid_name rel → valid_name fname →
  os_path_join (text_of root rel) fname = text_of root (rel ++ [fname]).
Proof.
  intros Hroot Hrel Hf. unfold os_path_join.
  destruct (last_text_of root rel Hroot Hrel) as [Hne Hlast].
  assert (starts_with [slash] fname = false) as ->.
  { destruct Hf as (Hfne & _ & _ & Hs). destruct fname as [|c fname]; [done|].
    apply not_elem_of_cons in Hs as [Hc _]. simpl.
    apply chr_eqb_false in Hc. by rewrite Hc. }
  rewrite !bool_decide_eq_false_2 by done. cbn [orb].
  by rewrite text_of_snoc.
Qed.

Lemma plain_name_valid c : plain_name c → valid_name c.
Proof. by intros [? _]. Qed.

Lemma valid_name_sources : valid_name (lit "sources").
Proof. split_and!; [by vm_compute..|solve_lit]. Qed.

Lemma valid_name_templates : valid_name (lit "templates").
Proof. split_and!; [by vm_compute..|solve_lit]. Qed.

Lemma populate_file_item fs rel fname :
  Forall plain_name rel → plain_name fname →
  populate_file fs (text_of (lit "templates") rel) fname = populate_item fs (rel, fname).
Proof.
  intros Hrel Hf. unfold populate_file, populate_item, ensure_dir. cbn [fst snd].
  assert (Forall valid_name rel) as Hvalid
    by (eapply Forall_impl; [done|apply plain_name_valid]).
  rewrite str_replace_text_of by done.
  rewrite parse_path_text_of by (done || apply valid_name_sources).
  change (lit "sources" :: rel) with (sources_dir ++ rel).
  rewrite os_path_join_text_of by (done || apply valid_name_templates || by apply plain_name_valid).
  rewrite str_replace_text_of by (apply Forall_app; split; [done|by constructor]).
  rewrite !parse_path_text_of;
    try (apply Forall_app; split; [done|constructor; [by apply plain_name_valid|done]]);
    try apply valid_name_sources; try apply valid_name_templates.
  done.
Qed.

Lemma populate_files_items fs items :
  Forall (λ it, Forall plain_name it.1 ∧ plain_name it.2) items →
  populate_files fs (map (λ it, (text_of (lit "templates") it.1, it.2)) items)
  = populate_items fs items.
Proof.
  intros Hitems. revert fs. induction Hitems as [|[rel fname] items [Hr Hf] _ IH]; intros fs.
  - done.
  - cbn [map populate_files populate_items fst snd].
    rewrite populate_file_item by done.
    destruct (populate_item fs (rel, fname)); [|done..]. apply IH.
Qed.

(** ** What [os.walk] lists *)

Lemma child_name_Some d k name : child_name d k = Some name ↔ k = d ++ [name].
Proof.
  unfold child_name. split.
  - case_bool_decide as H; [|done]. destruct H as [<- Hne].
    intros (l' & ->)%last_Some. by rewrite removelast_last.
  - intros ->. rewrite bool_decide_eq_true_2.
    + apply last_snoc.
    + split; [apply removelast_last|by destruct d].
Qed.

Lemma elem_of_listdir (fs : gmap (list str) entry) d name e :
  (name, e) ∈ listdir fs d ↔ fs !! (d ++ [name]) = Some e.
Proof.
  unfold listdir. rewrite list_elem_of_omap. split.
  - intros ([k e'] & Hin%elem_of_map_to_list & Hf). cbn [fst snd] in Hf.
    destruct (child_name d k) as [n|] eqn:Ec; [|done]. injection Hf as -> ->.
    apply child_name_Some in Ec as ->. done.
  - intros H. exists (d ++ [name], e). split; [by apply elem_of_map_to_list|].
    cbn [fst snd]. by rewrite (proj2 (child_name_Some d _ name) eq_refl).
Qed.

Lemma elem_of_file_names (fs : gmap (list str) entry) d name :
  name ∈ file_names (listdir fs d) ↔ ∃ c, fs !! (d ++ [name]) = Some (File c).
Proof.
  unfold file_names. rewrite list_elem_of_fmap. split.
  - intros ([n e] & -> & [He Hin]%list_elem_of_filter). cbn [fst snd] in *.
    apply elem_of_listdir in Hin. destruct e as [c|]; [by exists c|done].
  - intros [c Hc]. exists (name, File c). split; [done|].
    apply list_elem_of_filter. split; [done|]. by apply elem_of_listdir.
Qed.

(** The directories of the walk. *)
Definition walk_dirs (fs : gmap (list str) entry) (d0 : list str) : list (list str) :=
  d0 :: merge_sort shorter
          (filter (λ k, d0 `prefix_of` k ∧ k ≠ d0)
                  (filter (λ ke, ke.2 = Dir) (map_to_list fs)).*1).

Lemma elem_of_walk_dirs (fs : gmap (list str) entry) d0 d :
  d ∈ walk_dirs fs d0 ↔ d = d0 ∨ (fs !! d = Some Dir ∧ d0 `prefix_of` d ∧ d ≠ d0).
Proof.
  unfold walk_dirs. rewrite elem_of_cons, merge_sort_Permutation.
  rewrite list_elem_of_filter, list_elem_of_fmap. split.
  - intros [?|[[H1 H2] ([k e] & -> & [He Hin]%list_elem_of_filter)]]; [by left|right].
    cbn [fst snd] in *. subst e. by apply elem_of_map_to_list in Hin.
  - intros [?|(Hd & H1 & H2)]; [by left|right]. split; [done|].
    exists (d, Dir). split; [done|]. apply list_elem_of_filter. split; [done|].
    by apply elem_of_map_to_list.
Qed.

(** The files of the templates, as pairs of a directory below [templates]
    and a file name, in the order of the walk. *)
Definition template_items (fs : gmap (list str) entry) : list (list str * str) :=
  concat (map (λ d, map (pair (drop 1 d)) (file_names (listdir fs d)))
              (walk_dirs fs templates_dir)).

Lemma walk_files_map {A} (f : A → str * list str * list str) (l : list A) :
  walk_files (map f l) = concat (map (λ a, map (pair (f a).1.1) (f a).2) l).
Proof. unfold walk_files. by rewrite map_map. Qed.

Lemma map_concat_map {A B C} (g : B → C) (h : A → list B) (l : list A) :
  map g (concat (map h l)) = concat (map (λ a, map g (h a)) l).
Proof.
  induction l as [|a l IH]; [done|]. cbn [map concat]. by rewrite map_app, IH.
Qed.

Lemma walk_files_templates (fs : gmap (list str) entry) :
  fs !! templates_dir = Some Dir →
  walk_files (walk fs (lit "templates"))
  = map (λ it, (text_of (lit "templates") it.1, it.2)) (template_items fs).
Proof.
  intros Ht. unfold walk, template_items.
  change (parse_path (lit "templates")) with templates_dir.
  unfold fs_isdir. rewrite (bool_decide_eq_true_2 (fs !! templates_dir = Some Dir)) by done.
  rewrite orb_true_r. fold (walk_dirs fs templates_dir).
  rewrite walk_files_map, map_concat_map. f_equal. apply map_ext. intros d.
  cbn [fst snd]. by rewrite map_map.
Qed.

Lemma elem_of_concat {A} (x : A) (ls : list (list A)) :
  x ∈ concat ls ↔ ∃ l, x ∈ l ∧ l ∈ ls.
Proof.
  induction ls as [|l ls IH]; cbn [concat].
  - split; [by intros ?%elem_of_nil|by intros (? & _ & ?%elem_of_nil)].
  - rewrite elem_of_app, IH. split.
    + intros [?|(l' & ? & ?)]; [exists l; split; [done|by left]|].
      exists l'. split; [done|by right].
    + intros (l' & Hx & [->|?]%elem_of_cons); [by left|right; by exists l'].
Qed.

Lemma elem_of_template_items (fs : gmap (list str) entry) rel fname :
  (rel, fname) ∈ template_items fs
  ↔ ∃ d, d ∈ walk_dirs fs templates_dir ∧ rel = drop 1 d
         ∧ ∃ c, fs !! (d ++ [fname]) = Some (File c).
Proof.
  unfold template_items. rewrite elem_of_concat. split.
  - intros (l & Hin & (d & -> & Hd)%list_elem_of_fmap).
    apply list_elem_of_fmap in Hin as (n & [= -> ->] & Hn).
    exists d. split_and!; [done..|]. by apply elem_of_file_names.
  - intros (d & Hd & -> & Hc).
    exists (map (pair (drop 1 d)) (file_names (listdir fs d))). split.
    + apply list_elem_of_fmap. exists fname. split; [done|]. by apply elem_of_file_names.
    + apply (list_elem_of_fmap
               (λ d, map (pair (drop 1 d)) (file_names (listdir fs d)))). by exists d.
Qed.

Lemma walk_dirs_prefix (fs : gmap (list str) entry) d :
  d ∈ walk_dirs fs templates_dir → d = templates_dir ++ drop 1 d.
Proof.
  intros [->|(_ & [t ->] & _)]%elem_of_walk_dirs; [done|]. done.
Qed.

Lemma template_items_sound (fs : gmap (list str) entry) :
  Forall (template_file fs) (template_items fs).
Proof.
  apply Forall_forall. intros [rel fname] (d & Hd & -> & c & Hc)%elem_of_template_items.
  exists c. cbn [fst snd]. rewrite app_assoc, <- (walk_dirs_prefix fs d Hd). done.
Qed.

Lemma template_items_complete (fs : gmap (list str) entry) rel fname :
  (∀ k q e, fs !! k = Some e → templates_dir `prefix_of` q → q `prefix_of` k → q ≠ k →
            fs !! q = Some Dir) →
  template_file fs (rel, fname) → (rel, fname) ∈ template_items fs.
Proof.
  intros Hwf [c Hc]. cbn [fst snd] in Hc. apply elem_of_template_items.
  exists (templates_dir ++ rel). split_and!; [|done|].
  - apply elem_of_walk_dirs. destruct rel as [|r rel]; [by left|right].
    split_and!.
    + apply (Hwf _ _ _ Hc); [by apply prefix_app_r|by apply prefix_app, prefix_app_r|].
      intros H. apply (f_equal length) in H. rewrite !length_app in H. simpl in H. lia.
    + by apply prefix_app_r.
    + done.
  - exists c. by rewrite <- app_assoc.
Qed.

(** ** The template copy as a whole *)

Lemma not_sources_templates (k : list str) :
  templates_dir `prefix_of` k → ¬ sources_dir `prefix_of` k.
Proof.
  intros [t ->] [t' H]. unfold templates_dir, sources_dir in H. by injection H.
Qed.

Lemma reset_sources (fs : gmap (list str) entry) :
  fs !! sources_dir = Some Dir ∨ (∀ k, sources_dir `prefix_of` k → fs !! k = None) →
  ∃ base,
    (if fs_exists fs sources_dir then rmtree fs sources_dir else Ok fs) = Ok base
    ∧ (∀ k, sources_dir `prefix_of` k → base !! k = None)
    ∧ (∀ k, ¬ sources_dir `prefix_of` k → base !! k = fs !! k).
Proof.
  intros [Hd|Hn].
  - unfold fs_exists, rmtree, fs_isdir. rewrite Hd.
    rewrite (bool_decide_eq_true_2 (is_Some _)) by eauto.
    rewrite (bool_decide_eq_true_2 (Some Dir = Some Dir)) by done.
    rewrite !orb_true_r. eexists. split_and!; [done|..].
    + intros k Hk. apply map_lookup_filter_None. right. intros e _ Hn. by apply Hn.
    + intros k Hk. destruct (fs !! k) as [e|] eqn:Ek.
      * by apply map_lookup_filter_Some.
      * apply map_lookup_filter_None. by left.
  - unfold fs_exists. rewrite (Hn sources_dir) by done.
    rewrite bool_decide_eq_false_2 by done.
    rewrite bool_decide_eq_false_2 by (by intros [? ?]).
    exists fs. by split_and!.
Qed.

Definition template_tree : gmap (list str) entry :=
  list_to_map
    [([lit "templates"], Dir);
     ([lit "templates"; lit "index.md"], File (lit "# Home"));
     ([lit "templates"; lit "brave-rewards-verification.txt"], File (lit "token"))].

(** C2, as stated, fails: a file of the templates that is not a Markdown
    file is not copied. *)
Lemma populate_sources_counterexample :
  read_file template_tree [lit "templates"; lit "brave-rewards-verification.txt"]
  = Ok (lit "token")
  ∧ read_back (populate_sources template_tree) [lit "sources"; lit "index.md"]
    = Ok (lit "# Home")
  ∧ read_back (populate_sources template_tree)
      [lit "sources"; lit "brave-rewards-verification.txt"]
    = Raise OSError
  ∧ match populate_sources template_tree with
    | Ok fs' => fs' !! [lit "sources"; lit "brave-rewards-verification.txt"] = None
    | _ => False
    end.
Proof. split_and!; vm_compute; reflexivity. Qed.

(** The template copy, on a well-formed working directory. *)
Lemma populate_sources_correct (fs : gmap (list str) entry) :
  fs !! templates_dir = Some Dir →
  (∀ k q e, fs !! k = Some e → templates_dir `prefix_of` q → q `prefix_of` k → q ≠ k →
            fs !! q = Some Dir) →
  (∀ k e, fs !! k = Some e → templates_dir `prefix_of` k → Forall plain_name (drop 1 k)) →
  (fs !! sources_dir = Some Dir ∨ (∀ k, sources_dir `prefix_of` k → fs !! k = None)) →
  ∃ fs',
    populate_sources fs = Ok fs'
    ∧ (∀ k, ¬ sources_dir `prefix_of` k → fs' !! k = fs !! k)
    ∧ (∀ rel fname c,
         fs !! (templates_dir ++ rel ++ [fname]) = Some (File c) →
         fs' !! (sources_dir ++ rel) = Some Dir
         ∧ (is_md fname → fs' !! (sources_dir ++ rel ++ [fname]) = Some (File c))
         ∧ (¬ is_md fname → fs' !! (sources_dir ++ rel ++ [fname]) = None))
    ∧ (∀ k c,
         sources_dir `prefix_of` k → fs' !! k = Some (File c) →
         ∃ rel fname, k = sources_dir ++ rel ++ [fname] ∧ is_md fname
                      ∧ fs !! (templates_dir ++ rel ++ [fname]) = Some (File c))
    ∧ (∀ k,
         sources_dir `prefix_of` k → fs' !! k = Some Dir →
         ∃ rel fname c, k `prefix_of` sources_dir ++ rel
                        ∧ fs !! (templates_dir ++ rel ++ [fname]) = Some (File c)).
Proof.
  intros Ht Hwf Hnames Hsrc.
  destruct (reset_sources fs Hsrc) as (base & Hreset & Hbase_s & Hbase).
  assert (∀ k, templates_dir `prefix_of` k → base !! k = fs !! k) as Hbase_t.
  { intros k Hk. by apply Hbase, not_sources_templates. }
  assert (∀ k q e, base !! k = Some e → templates_dir `prefix_of` q → q `prefix_of` k →
                   q ≠ k → base !! q = Some Dir) as Hwf_b.
  { intros k q e Hk Hq Hp Hne. rewrite Hbase_t in Hk by (by etrans).
    rewrite Hbase_t by done. by eapply Hwf. }
  assert (∀ it, template_file base it ↔ template_file fs it) as Htf.
  { intros [rel fname]. unfold template_file. cbn [fst snd].
    by rewrite Hbase_t by (by apply prefix_app_r). }
  assert (Forall (λ it, Forall plain_name it.1 ∧ plain_name it.2) (template_items base))
    as Hplain.
  { eapply Forall_impl; [apply template_items_sound|]. intros [rel fname] [c Hc]%Htf.
    cbn [fst snd] in *. specialize (Hnames _ _ Hc (prefix_app_r _ _ _ (reflexivity _))).
    change (drop 1 (templates_dir ++ rel ++ [fname])) with (rel ++ [fname]) in Hnames.
    apply Forall_app in Hnames as [? Hf]. by inversion Hf. }
  destruct (populate_items_populated base Hwf_b (template_items base) [] base)
    as (fs' & Hrun & Hpop); [by apply populated_start|apply template_items_sound|].
  rewrite app_nil_r in Hpop.
  assert (∀ rel fname, template_file fs (rel, fname) →
                       (rel, fname) ∈ reverse (template_items base)) as Hin.
  { intros rel fname Hit%Htf. apply elem_of_reverse. by apply template_items_complete. }
  exists fs'. split_and!.
  - unfold populate_sources. change [lit "sources"] with sources_dir.
    rewrite Hreset. cbn [mbind result_bind].
    rewrite walk_files_templates by (by rewrite Hbase_t).
    by rewrite populate_files_items.
  - intros k Hk. rewrite (populated_frame _ _ _ Hpop) by done. by apply Hbase.
  - intros rel fname c Hc.
    assert (template_file fs (rel, fname)) as Hit by (by exists c).
    pose proof (Hin _ _ Hit) as Hmem. split_and!.
    + by apply (populated_done_dir _ _ _ Hpop rel fname).
    + intros Hmd. apply (populated_done_md _ _ _ Hpop rel fname c); [done..|].
      by rewrite Hbase_t by (by apply prefix_app_r).
    + intros Hmd. destruct (fs' !! (sources_dir ++ rel ++ [fname])) as [[c'|]|] eqn:E; [| |done].
      * destruct (populated_file _ _ _ Hpop _ _ E) as (r & f & _ & Hf & Heq & _).
        { by apply prefix_app_r. }
        apply app_inv_head in Heq. apply app_inj_tail in Heq as [_ ->]. done.
      * by destruct (target_not_dir base Hwf_b _ fs' rel fname Hpop (proj2 (Htf _) Hit)).
  - intros k c Hk Hf.
    destruct (populated_file _ _ _ Hpop _ _ Hf Hk) as (r & f & _ & Hmd & -> & Hb).
    exists r, f. split_and!; [done..|].
    by rewrite Hbase_t in Hb by (by apply prefix_app_r).
  - intros k Hk Hd.
    destruct (populated_dir _ _ _ Hpop _ Hd Hk) as (r & f & Hmem & Hp).
    pose proof (populated_items _ _ _ Hpop) as Hitems.
    rewrite Forall_forall in Hitems. destruct (proj1 (Htf _) (Hitems _ Hmem)) as [c Hc].
    by exists r, f, c.
Qed.

(** C2, amended. Take a working directory where [templates] is a directory,
    every entry below it lies in directories, the names below it are plain
    names without the word [templates], and [sources] is a directory or does
    not exist. Then the template copy succeeds; it leaves everything outside
    [sources] as it was; for every file of the templates it creates the
    directory with the same relative path below [sources], copies the file to
    the same relative path when its name ends with [.md], and copies nothing
    for any other file; and whatever [sources] held before is gone: every file
    below it is such a copy and every directory below it leads to one of the
    directories created. *)
Theorem populate_sources_markdown (fs : gmap (list str) entry) :
  fs !! templates_dir = Some Dir →
  (∀ k q e, fs !! k = Some e → templates_dir `prefix_of` q → q `prefix_of` k → q ≠ k →
            fs !! q = Some Dir) →
  (∀ k e, fs !! k = Some e → templates_dir `prefix_of` k → Forall plain_name (drop 1 k)) →
  (fs !! sources_dir = Some Dir ∨ (∀ k, sources_dir `prefix_of` k → fs !! k = None)) →
  ∃ fs',
    populate_sources fs = Ok fs'
    ∧ (∀ k, ¬ sources_dir `prefix_of` k → fs' !! k = fs !! k)
    ∧ (∀ rel fname c,
         fs !! (templates_dir ++ rel ++ [fname]) = Some (File c) →
         fs' !! (sources_dir ++ rel) = Some Dir
         ∧ (is_md fname → fs' !! (sources_dir ++ rel ++ [fname]) = Some (File c))
         ∧ (¬ is_md fname → fs' !! (sources_dir ++ rel ++ [fname]) = None))
    ∧ (∀ k c,
         sources_dir `prefix_of` k → fs' !! k = Some (File c) →
         ∃ rel fname, k = sources_dir ++ rel ++ [fname] ∧ is_md fname
                      ∧ fs !! (templates_dir ++ rel ++ [fname]) = Some (File c))
    ∧ (∀ k,
         sources_dir `prefix_of` k → fs' !! k = Some Dir →
         ∃ rel fname c, k `prefix_of` sources_dir ++ rel
                        ∧ fs !! (templates_dir ++ rel ++ [fname]) = Some (File c)).
Proof. apply populate_sources_correct. Qed.

(** Checks that decide the conditions on a given tree. *)
Definition plain_nameb (c : str) : bool :=
  negb (str_eqb c []) && negb (str_eqb c (lit ".")) && negb (str_eqb c (lit ".."))
  && bool_decide (slash ∉ c) && negb (contains (lit "templates") c).

Definition templates_checked (fs : gmap (list str) entry) : Prop :=
  map_Forall (λ k (_ : entry),
      templates_dir `prefix_of` k →
      forallb plain_nameb (drop 1 k) = true
      ∧ Forall (λ n, templates_dir `prefix_of` take n k → fs !! take n k = Some Dir)
               (seq 0 (length k))) fs.

Lemma plain_nameb_true c : plain_nameb c = true → plain_name c.
Proof.
  unfold plain_nameb. rewrite !andb_true_iff, !negb_true_iff.
  intros ((((H1 & H2) & H3) & H4) & H5).
  apply str_eqb_false in H1, H2, H3. apply bool_decide_eq_true in H4.
  apply contains_false in H5. by repeat split.
Qed.

Lemma templates_checked_names (fs : gmap (list str) entry) :
  templates_checked fs →
  ∀ k e, fs !! k = Some e → templates_dir `prefix_of` k → Forall plain_name (drop 1 k).
Proof.
  intros H k e Hk Hp. destruct (H k e Hk Hp) as [Hn _].
  rewrite forallb_forall in Hn. apply Forall_forall. intros c Hc.
  apply plain_nameb_true, Hn. by apply list_elem_of_In.
Qed.

Lemma templates_checked_wf (fs : gmap (list str) entry) :
  templates_checked fs →
  ∀ k q e, fs !! k = Some e → templates_dir `prefix_of` q → q `prefix_of` k → q ≠ k →
           fs !! q = Some Dir.
Proof.
  intros H k q e Hk Hq Hp Hne.
  destruct (H k e Hk (transitivity Hq Hp)) as [_ Hw].
  rewrite Forall_forall in Hw. destruct Hp as [t ->].
  specialize (Hw (length q)). rewrite take_app_length in Hw. apply Hw; [|done].
  apply elem_of_seq. rewrite length_app. destruct t; [by rewrite app_nil_r in Hne|].
  simpl. lia.
Qed.

Lemma sources_absent (fs : gmap (list str) entry) :
  map_Forall (λ k (_ : entry), ¬ sources_dir `prefix_of` k) fs →
  ∀ k, sources_dir `prefix_of` k → fs !! k = None.
Proof. intros H k Hk. destruct (fs !! k) as [e|] eqn:E; [|done]. by destruct (H k e E). Qed.

Lemma populate_sources_markdown_witness :
  ∃ fs',
    populate_sources template_tree = Ok fs'
    ∧ fs' !! (sources_dir ++ [] ++ [lit "index.md"]) = Some (File (lit "# Home"))
    ∧ fs' !! (sources_dir ++ [] ++ [lit "brave-rewards-verification.txt"]) = None.
Proof.
  assert (templates_checked template_tree) as Hchecked.
  { apply (bool_decide_unpack _). vm_compute. reflexivity. }
  destruct (populate_sources_markdown template_tree) as (fs' & Hrun & _ & Hfiles & _).
  - reflexivity.
  - by apply templates_checked_wf.
  - by apply templates_checked_names.
  - right. apply sources_absent. apply (bool_decide_unpack _). vm_compute. reflexivity.
  - exists fs'. split; [done|]. split.
    + apply (Hfiles [] (lit "index.md") (lit "# Home")); reflexivity.
    + apply (Hfiles [] (lit "brave-rewards-verification.txt") (lit "token")); [reflexivity|].
      intros H. vm_compute in H. discriminate.
Defined.

(** ** What a run writes *)

















(** ** The order of the members of a module *)










(** ** Two runs in a row *)













(** * Further properties *)

(** ** Keyword-only parameters *)

(** A function that [inspect.getargspec] refuses, with the answer of
    [inspect.getfullargspec]. *)
Definition full_function (module name : str) (spec : FullArgSpec) : callable :=
  {| fn_ref := 0; fn_module := module; fn_name := name; fn_doc := None;
     fn_inspect := {| getargspec := Raise ValueError; getfullargspec := Ok spec |};
     fn_original_function := None |}.

Lemma append_kwonlydefaults_tuple kwonlydefaults vs kwonlyargs :
  kwonlyargs ≠ [] →
  append_kwonlydefaults kwonlydefaults (DTuple vs) kwonlyargs = Raise AttributeError.
Proof. by destruct kwonlyargs. Qed.

Lemma append_kwonlydefaults_none vs kwonlyargs :
  kwonlyargs ≠ [] →
  append_kwonlydefaults None (DList vs) kwonlyargs = Raise TypeError.
Proof. by destruct kwonlyargs. Qed.

Lemma append_kwonlydefaults_missing d vs kwonlyargs kwa :
  kwa ∈ kwonlyargs → dict_get kwa d = None →
  append_kwonlydefaults (Some d) (DList vs) kwonlyargs = Raise KeyError.
Proof.
  intros Hin Hget. revert vs. induction Hin as [kwa rest|kwa other rest Hin IH]; intros vs.
  - cbn [append_kwonlydefaults append_kwonlydefault]. by rewrite Hget.
  - cbn [append_kwonlydefaults append_kwonlydefault].
    destruct (dict_get other d); [|done]. cbn [mbind result_bind]. by apply IH.
Qed.

Lemma append_kwonlydefaults_all d vs kwonlyargs values :
  Forall2 (λ kwa v, dict_get kwa d = Some v) kwonlyargs values →
  append_kwonlydefaults (Some d) (DList vs) kwonlyargs = Ok (DList (vs ++ values)).
Proof.
  intros H. revert vs. induction H as [|kwa v rest values Hget _ IH]; intros vs.
  - by rewrite app_nil_r.
  - cbn [append_kwonlydefaults append_kwonlydefault]. rewrite Hget.
    cbn [mbind result_bind]. by rewrite IH, <- app_assoc.
Qed.

Lemma get_function_signature_raises fn f method e :
  read_signature fn = Ok (SFull f) →
  append_kwonlydefaults (fa_kwonlydefaults f) (replace_none_defaults (fa_defaults f))
    (fa_kwonlyargs f) = Raise e →
  get_function_signature fn method = Raise e.
Proof.
  intros Hr He. unfold get_function_signature. rewrite Hr.
  cbn [mbind result_bind signature_args_defaults]. by rewrite He.
Qed.

Lemma get_class_signature_caught cls init :
  cls_init cls = Some init →
  get_function_signature init true = Raise TypeError
  ∨ get_function_signature init true = Raise AttributeError →
  get_class_signature cls
  = Ok (post_process_signature (cls_module cls ++ lit "." ++ cls_name cls ++ lit "()")).
Proof.
  intros Hinit H. unfold get_class_signature. rewrite Hinit. cbn [mbind result_bind].
  by destruct H as [-> | ->].
Qed.

Lemma get_class_signature_raises cls init e :
  cls_init cls = Some init →
  get_function_signature init true = Raise e →
  e ≠ TypeError → e ≠ AttributeError →
  get_class_signature cls = Raise e.
Proof.
  intros Hinit H H1 H2. unfold get_class_signature. rewrite Hinit. cbn [mbind result_bind].
  rewrite H. cbn [mbind result_bind]. by destruct e.
Qed.

(** A function with keyword-only parameters cannot be rendered when it also
    has positional default values (the tuple of defaults has no [append]),
    when none of the keyword-only parameters has a default value (there is no
    dict to look into), or when one of them has none (its key is missing). *)
Theorem get_function_signature_keyword_only (fn : callable) (f : FullArgSpec)
    (method : bool) :
  read_signature fn = Ok (SFull f) →
  fa_kwonlyargs f ≠ [] →
  (is_Some (fa_defaults f) → get_function_signature fn method = Raise AttributeError)
  ∧ (fa_defaults f = None → fa_kwonlydefaults f = None →
     get_function_signature fn method = Raise TypeError)
  ∧ (∀ d kwa, fa_defaults f = None → fa_kwonlydefaults f = Some d →
              kwa ∈ fa_kwonlyargs f → dict_get kwa d = None →
              get_function_signature fn method = Raise KeyError).
Proof.
  intros Hr Hne. split_and!.
  - intros [vs Hvs]. apply (get_function_signature_raises fn f); [done|].
    rewrite Hvs. by apply append_kwonlydefaults_tuple.
  - intros Hd Hk. apply (get_function_signature_raises fn f); [done|].
    rewrite Hd, Hk. by apply append_kwonlydefaults_none.
  - intros d kwa Hd Hk Hin Hget. apply (get_function_signature_raises fn f); [done|].
    rewrite Hd, Hk. by eapply append_kwonlydefaults_missing.
Qed.

(** [def pad(x, n=1, *, value)] *)
Definition pad_spec : FullArgSpec :=
  {| fa_args := [lit "x"; lit "n"]; fa_varargs := None; fa_varkw := None;
     fa_defaults := Some [VOther (lit "1")]; fa_kwonlyargs := [lit "value"];
     fa_kwonlydefaults := None |}.

Lemma get_function_signature_keyword_only_witness :
  get_function_signature (full_function (lit "spektral.utils.misc") (lit "pad") pad_spec) false
  = Raise AttributeError.
Proof.
  destruct (get_function_signature_keyword_only
              (full_function (lit "spektral.utils.misc") (lit "pad") pad_spec) pad_spec false)
    as (H & _ & _); [reflexivity|done|].
  apply H. by eexists.
Defined.

(** A class whose constructor has keyword-only parameters loses its
    parameter list: the error of [get_function_signature] is caught, and the
    class is rendered with empty parentheses. When only some of the
    keyword-only parameters have a default value the error is a [KeyError],
    which is not caught. *)
Theorem get_class_signature_keyword_only (cls : class) (init : callable) (f : FullArgSpec) :
  cls_init cls = Some init →
  read_signature init = Ok (SFull f) →
  fa_kwonlyargs f ≠ [] →
  (is_Some (fa_defaults f) ∨ fa_kwonlydefaults f = None →
   get_class_signature cls
   = Ok (post_process_signature (cls_module cls ++ lit "." ++ cls_name cls ++ lit "()")))
  ∧ (∀ d kwa, fa_defaults f = None → fa_kwonlydefaults f = Some d →
              kwa ∈ fa_kwonlyargs f → dict_get kwa d = None →
              get_class_signature cls = Raise KeyError).
Proof.
  intros Hinit Hr Hne. split.
  - intros H. apply (get_class_signature_caught cls init Hinit).
    destruct (fa_defaults f) as [vs|] eqn:Hd.
    + right. apply (get_function_signature_raises init f); [done|].
      rewrite Hd. by apply append_kwonlydefaults_tuple.
    + destruct H as [[? ?]|Hk]; [done|]. left.
      apply (get_function_signature_raises init f); [done|].
      rewrite Hd, Hk. by apply append_kwonlydefaults_none.
  - intros d kwa Hd Hk Hin Hget.
    apply (get_class_signature_raises cls init); [done| |done..].
    apply (get_function_signature_raises init f); [done|].
    rewrite Hd, Hk. by eapply append_kwonlydefaults_missing.
Qed.

(** [def __init__(self, channels, *, activation)] *)
Definition init_spec : FullArgSpec :=
  {| fa_args := [lit "self"; lit "channels"]; fa_varargs := None; fa_varkw := None;
     fa_defaults := None; fa_kwonlyargs := [lit "activation"];
     fa_kwonlydefaults := None |}.

Definition conv_class : class :=
  {| cls_ref := 0; cls_module := lit "spektral.data.conv"; cls_name := lit "Conv";
     cls_doc := None;
     cls_init := Some (full_function (lit "spektral.data.conv") (lit "__init__") init_spec);
     cls_source_line := Ok 1%nat; cls_routines := []; cls_attrs := [] |}.

Lemma get_class_signature_keyword_only_witness :
  get_class_signature conv_class = Ok (lit "spektral.data.conv.Conv()").
Proof.
  destruct (get_class_signature_keyword_only conv_class
              (full_function (lit "spektral.data.conv") (lit "__init__") init_spec) init_spec)
    as [H _]; [reflexivity|reflexivity|done|].
  rewrite H; [reflexivity|by right].
Defined.

(** ** Default values *)

(** The text of a parameter with its default value. *)
Definition render_kwarg (a : str) (v : pyval) : str := a ++ lit "=" ++ render_default v.

Lemma split_args_defaults (method : bool) (first : str) (pos kw : list str)
    (vs : list pyval) :
  vs ≠ [] → length kw = length vs →
  split_args method ((if method then [first] else []) ++ pos ++ kw) vs
  = (pos, zip kw vs, true).
Proof.
  intros Hne Hlen. unfold split_args.
  assert ((if method then slice (Some 1) None ((if method then [first] else []) ++ pos ++ kw)
           else (if method then [first] else []) ++ pos ++ kw) = pos ++ kw) as ->.
  { destruct method; [|done]. apply slice_tail. }
  destruct vs as [|v vs']; [done|]. cbv beta iota zeta. set (vs := v :: vs') in *.
  assert (0 < length vs)%nat by (simpl; lia).
  rewrite slice_to_neg, slice_from_neg by done.
  rewrite length_app, <- Hlen, Nat.add_sub.
  by rewrite take_app_length, drop_app_length.
Qed.

Lemma map_render_kwargs (kw : list str) (vs : list pyval) :
  map (λ av : str * pyval, av.1 ++ lit "=" ++ render_default av.2 ++ lit ", ") (zip kw vs)
  = map (λ a, a ++ lit ", ") (zip_with render_kwarg kw vs).
Proof.
  revert vs. induction kw as [|a kw IH]; intros [|v vs]; try done.
  cbn [zip zip_with map fst snd]. rewrite <- (IH vs). unfold render_kwarg.
  by rewrite <- !app_assoc.
Qed.

Lemma render_signature_defaults module name (pos kw : list str) (vs : list pyval) :
  vs ≠ [] → length kw = length vs →
  render_signature module name pos (zip kw vs) true
  = module ++ lit "." ++ name ++ lit "("
    ++ str_join (lit ", ") (pos ++ zip_with render_kwarg kw vs) ++ lit ")".
Proof.
  intros Hne Hlen. unfold render_signature, clean_module_name.
  rewrite (foldl_app_concat _ (λ a, a ++ lit ", ")).
  rewrite (foldl_app_concat _ (λ av : str * pyval,
             av.1 ++ lit "=" ++ render_default av.2 ++ lit ", ")).
  rewrite map_render_kwargs. cbn [orb].
  rewrite <- (app_assoc _ (concat _) (concat _)), <- concat_app, <- map_app.
  rewrite concat_sep_join.
  2:{ destruct kw, vs; try done. by destruct pos. }
  rewrite !app_assoc. change (-2) with (- Z.of_nat (length (lit ", "))).
  rewrite slice_to_neg by (vm_compute; lia).
  rewrite length_app. rewrite Nat.add_sub. by rewrite take_app_length.
Qed.

Lemma get_function_signature_text (fn : callable) (signature : signature_t)
    (method : bool) (first : str) (pos kw : list str) (vs : list pyval) :
  read_signature fn = Ok signature →
  signature_args_defaults signature
  = Ok ((if method then [first] else []) ++ pos ++ kw, vs) →
  length kw = length vs →
  get_function_signature fn method
  = Ok (post_process_signature
          (fn_module fn ++ lit "." ++ fn_name fn ++ lit "("
           ++ str_join (lit ", ") (pos ++ zip_with render_kwarg kw vs) ++ lit ")")).
Proof.
  intros Hr Hs Hlen. unfold get_function_signature. rewrite Hr. cbn [mbind result_bind].
  rewrite Hs. cbn [mbind result_bind].
  destruct (decide (vs = [])) as [->|Hne].
  - destruct kw; [|done]. rewrite !app_nil_r. unfold split_args.
    assert ((if method then slice (Some 1) None ((if method then [first] else []) ++ pos)
             else (if method then [first] else []) ++ pos) = pos) as ->.
    { destruct method; [|done]. apply slice_tail. }
    by rewrite render_signature_positional.
  - rewrite split_args_defaults by done. by rewrite render_signature_defaults.
Qed.

(** A callable whose last parameters have default values is rendered with
    the parameters without a default first and then [name=value] for the
    others, a string value between single quotes, all separated by a comma
    and a space; as a method it loses its first parameter. *)
Theorem get_function_signature_defaults (fn : callable) (signature : signature_t)
    (method : bool) (first : str) (pos kw : list str) (vs : list pyval) :
  read_signature fn = Ok signature →
  signature_args_defaults signature
  = Ok ((if method then [first] else []) ++ pos ++ kw, vs) →
  length kw = length vs →
  get_function_signature fn method
  = Ok (post_process_signature
          (fn_module fn ++ lit "." ++ fn_name fn ++ lit "("
           ++ str_join (lit ", ") (pos ++ zip_with render_kwarg kw vs) ++ lit ")"))
  ∧ Forall2 (λ text av, text = av.1 ++ lit "=" ++ match av.2 with
                                                  | VStr s => lit "'" ++ s ++ lit "'"
                                                  | VOther repr => repr
                                                  end)
      (zip_with render_kwarg kw vs) (zip kw vs).
Proof.
  intros Hr Hs Hlen. split.
  - by apply get_function_signature_text with signature first.
  - clear. revert vs. induction kw as [|a kw IH]; intros [|v vs]; [by constructor..|].
    cbn [zip zip_with]. constructor; [by destruct v|apply IH].
Qed.

Lemma get_function_signature_defaults_witness :
  get_function_signature
    (module_function (lit "spektral.utils.convolution") (lit "normalized_adjacency")
       (method_spec [lit "A"; lit "symmetric"; lit "mode"]
          (Some [VOther (lit "True"); VStr (lit "sum")]))) false
  = Ok (lit "spektral.utils.normalized_adjacency(A, symmetric=True, mode='sum')").
Proof.
  destruct (get_function_signature_defaults
    (module_function (lit "spektral.utils.convolution") (lit "normalized_adjacency")
       (method_spec [lit "A"; lit "symmetric"; lit "mode"]
          (Some [VOther (lit "True"); VStr (lit "sum")])))
    (SArg (method_spec [lit "A"; lit "symmetric"; lit "mode"]
             (Some [VOther (lit "True"); VStr (lit "sum")])))
    false [] [lit "A"] [lit "symmetric"; lit "mode"]
    [VOther (lit "True"); VStr (lit "sum")]) as [H _]; [reflexivity..|].
  rewrite H. reflexivity.
Defined.

(** ** Module levels *)

(** A part of a dotted name: it holds no dot and does not start with a
    digit. *)
Definition plain_part (p : str) : Prop := ("."%char ∉ p) ∧ dot_splits p = true.

Lemma re_split_dot_plain a : "."%char ∉ a → re_split_dot a = [a].
Proof.
  induction a as [|c a IH]; [done|]. intros [Hc Ha]%not_elem_of_cons.
  cbn [re_split_dot]. rewrite (proj2 (chr_eqb_false c "."%char)) by done.
  cbn [andb]. by rewrite IH.
Qed.

Lemma re_split_dot_sep a b :
  "."%char ∉ a → dot_splits b = true →
  re_split_dot (a ++ "."%char :: b) = a :: re_split_dot b.
Proof.
  intros Ha Hb. induction a as [|c a IH].
  - cbn [app re_split_dot]. rewrite (proj2 (chr_eqb_true _ _)) by done. by rewrite Hb.
  - apply not_elem_of_cons in Ha as [Hc Ha].
    change ((c :: a) ++ "."%char :: b) with (c :: (a ++ "."%char :: b)).
    cbn [re_split_dot]. rewrite (proj2 (chr_eqb_false c "."%char)) by done.
    cbn [andb]. by rewrite IH.
Qed.

Lemma dot_splits_join q rest :
  dot_splits q = true → dot_splits (str_join (lit ".") (q :: rest)) = true.
Proof.
  intros Hq. destruct rest as [|r rest]; [done|].
  rewrite str_join_cons by done. by destruct q.
Qed.

Lemma re_split_dot_join (p : str) (comps : list str) :
  "."%char ∉ p → Forall plain_part comps →
  re_split_dot (str_join (lit ".") (p :: comps)) = p :: comps.
Proof.
  intros Hp Hcomps. revert p Hp.
  induction Hcomps as [|q rest [Hq Hd] _ IH]; intros p Hp.
  - by apply re_split_dot_plain.
  - rewrite str_join_cons by done.
    change (p ++ lit "." ++ str_join (lit ".") (q :: rest))
      with (p ++ "."%char :: str_join (lit ".") (q :: rest)).
    rewrite re_split_dot_sep; [|done|by apply dot_splits_join]. by rewrite IH.
Qed.

Lemma post_process_signature_join (p0 sub p2 : str) (rest : list str) :
  sub = lit "layers" ∨ sub = lit "utils" →
  "."%char ∉ p0 → plain_part p2 → Forall plain_part rest → rest ≠ [] →
  post_process_signature (str_join (lit ".") (p0 :: sub :: p2 :: rest))
  = lit "spektral." ++ sub ++ lit "." ++ str_join (lit ".") rest.
Proof.
  intros Hsub H0 H2 Hrest Hne.
  assert (plain_part sub) as Hs.
  { destruct Hsub as [-> | ->]; (split; [solve_lit|done]). }
  assert (re_split_dot (str_join (lit ".") (p0 :: sub :: p2 :: rest))
          = p0 :: sub :: p2 :: rest) as Hparts.
  { apply re_split_dot_join; [done|]. constructor; [done|]. by constructor. }
  destruct Hsub as [-> | ->].
  - rewrite post_process_signature_layers; rewrite Hparts; [done| |done].
    destruct rest; [done|]. simpl. lia.
  - rewrite post_process_signature_utils; rewrite Hparts; [done| |done].
    destruct rest; [done|]. simpl. lia.
Qed.

(** [post_process_signature] removes the third part of a dotted name of
    [layers] or [utils] that has four parts or more, and puts [spektral] for
    the first. Applied again it removes the next part: it stops only when
    three parts are left. *)
Theorem post_process_signature_levels (p0 sub p2 p3 : str) (rest : list str) :
  sub = lit "layers" ∨ sub = lit "utils" →
  "."%char ∉ p0 → plain_part p2 → plain_part p3 → Forall plain_part rest →
  let signature := str_join (lit ".") (p0 :: sub :: p2 :: p3 :: rest) in
  post_process_signature signature
  = str_join (lit ".") (lit "spektral" :: sub :: p3 :: rest)
  ∧ (rest ≠ [] →
     post_process_signature (post_process_signature signature)
     = str_join (lit ".") (lit "spektral" :: sub :: rest))
  ∧ (rest = [] →
     post_process_signature (post_process_signature signature)
     = post_process_signature signature).
Proof.
  intros Hsub H0 H2 H3 Hrest signature.
  assert (post_process_signature signature
          = str_join (lit ".") (lit "spektral" :: sub :: p3 :: rest)) as Hfirst.
  { unfold signature. rewrite post_process_signature_join; [|done..|by constructor|done].
    rewrite (str_join_cons _ (lit "spektral")) by done.
    rewrite (str_join_cons _ sub) by done. reflexivity. }
  split_and!; [done| |].
  - intros Hne. rewrite Hfirst.
    rewrite post_process_signature_join; [|done|solve_lit|done..].
    rewrite (str_join_cons _ (lit "spektral")) by done.
    rewrite (str_join_cons _ sub) by done. reflexivity.
  - intros ->. rewrite Hfirst. apply post_process_signature_unchanged.
    assert (plain_part sub) as Hs.
    { destruct Hsub as [-> | ->]; (split; [solve_lit|done]). }
    rewrite re_split_dot_join; [|solve_lit|constructor; [done|]; by constructor].
    simpl. lia.
Qed.

Lemma post_process_signature_levels_witness :
  post_process_signature (lit "spektral.layers.convolutional.gcn_conv.GCNConv(channels)")
  = lit "spektral.layers.gcn_conv.GCNConv(channels)"
  ∧ post_process_signature
      (post_process_signature (lit "spektral.layers.convolutional.gcn_conv.GCNConv(channels)"))
    = lit "spektral.layers.GCNConv(channels)".
Proof.
  destruct (post_process_signature_levels (lit "spektral") (lit "layers")
              (lit "convolutional") (lit "gcn_conv") [lit "GCNConv(channels)"])
    as (H1 & H2 & _).
  - by left.
  - solve_lit.
  - split; [solve_lit|done].
  - split; [solve_lit|done].
  - constructor; [|done]. split; [solve_lit|done].
  - split; [exact H1|]. by apply H2.
Defined.

Lemma str_replace_at_sep old new a c b :
  old ≠ [] → c ∉ old → ¬ occurs old a → ¬ occurs old b →
  str_replace old new (a ++ c :: old ++ b) = a ++ c :: new ++ b.
Proof.
  intros Hne Hc Ha Hb. rewrite str_replace_sep by done.
  rewrite (str_replace_absent old new a) by done. do 2 f_equal.
  destruct old as [|d old]; [done|].
  apply (str_replace_first_occurrence d old new [] b); [apply not_elem_of_nil|].
  eapply guarded_never_matches; [apply literal_match_guarded|done].
Qed.

Lemma plain_part_call name text :
  plain_part name → "."%char ∉ text → plain_part (name ++ lit "(" ++ text ++ lit ")").
Proof.
  intros [Hn Hd] Ht. split.
  - rewrite !not_elem_of_app. split_and!; [done|solve_lit|done|solve_lit].
  - by destruct name.
Qed.

Lemma not_occurs_call old text :
  old ≠ [] → "("%char ∉ old → ")"%char ∉ old → ¬ occurs old text →
  ¬ occurs old (lit "(" ++ text ++ lit ")").
Proof.
  intros Hne Ho Hc Ht H.
  change (lit "(" ++ text ++ lit ")") with ([] ++ "("%char :: (text ++ ")"%char :: [])) in H.
  apply occurs_sep in H as [H|H]; [by apply occurs_nil_r in H|..|done|done].
  apply occurs_sep in H as [H|H]; [done|by apply occurs_nil_r in H|done..].
Qed.

(** A class of a module four levels deep below [layers] or [utils], with a
    constructor that can be introspected, is shown as
    [spektral.layers.Name(...)]: the signature is shortened once as the
    signature of [__init__] and once more as the signature of the class, so
    both module levels are removed. (Without a constructor only one is, see
    C7.) *)
Theorem get_class_signature_deep_module (cls : class) (init : callable)
    (signature : signature_t) (p0 sub p2 p3 first : str) (pos kw : list str)
    (vs : list pyval) :
  let args := str_join (lit ", ") (pos ++ zip_with render_kwarg kw vs) in
  cls_init cls = Some init →
  fn_module init = cls_module cls → fn_name init = lit "__init__" →
  cls_module cls = str_join (lit ".") [p0; sub; p2; p3] →
  sub = lit "layers" ∨ sub = lit "utils" →
  "."%char ∉ p0 → plain_part p2 → plain_part p3 → plain_part (cls_name cls) →
  ¬ occurs (lit "__init__") p3 →
  read_signature init = Ok signature →
  signature_args_defaults signature = Ok (first :: pos ++ kw, vs) →
  length kw = length vs →
  "."%char ∉ args → ¬ occurs (lit "__init__") args →
  get_class_signature cls
  = Ok (lit "spektral." ++ sub ++ lit "." ++ cls_name cls ++ lit "(" ++ args ++ lit ")").
Proof.
  intros args Hinit Hmod Hname Hparts Hsub H0 H2 H3 Hn Hp3 Hr Hs Hlen Hdots Hargs.
  unfold get_class_signature. rewrite Hinit. cbn [mbind result_bind].
  rewrite (get_function_signature_text init signature true first pos kw vs) by done.
  cbn [mbind result_bind]. fold args. rewrite Hmod, Hname, Hparts. f_equal.
  assert (plain_part sub) as Hs'.
  { destruct Hsub as [-> | ->]; (split; [solve_lit|done]). }
  assert (¬ occurs (lit "__init__") sub) as Hsub'.
  { apply contains_false. by destruct Hsub as [-> | ->]. }
  set (call := lit "(" ++ args ++ lit ")").
  assert (str_join (lit ".") [p0; sub; p2; p3] ++ lit "." ++ lit "__init__" ++ call
          = str_join (lit ".") [p0; sub; p2; p3; lit "__init__" ++ call]) as ->.
  { cbn [str_join]. by rewrite <- !app_assoc. }
  rewrite post_process_signature_join; [|done..| |done].
  2:{ constructor; [done|]. constructor; [|done].
      apply (plain_part_call (lit "__init__") args); [|done]. split; [solve_lit|done]. }
  assert (lit "spektral." ++ sub ++ lit "." ++ str_join (lit ".") [p3; lit "__init__" ++ call]
          = (lit "spektral." ++ sub ++ lit "." ++ p3) ++ "."%char :: lit "__init__" ++ call)
    as ->.
  { cbn [str_join]. by rewrite <- !app_assoc. }
  rewrite str_replace_at_sep; [|done|solve_lit| |].
  - assert ((lit "spektral." ++ sub ++ lit "." ++ p3) ++ "."%char :: cls_name cls ++ call
            = str_join (lit ".") [lit "spektral"; sub; p3; cls_name cls ++ call]) as ->.
    { cbn [str_join]. by rewrite <- !app_assoc. }
    rewrite post_process_signature_join; [done|done|solve_lit|done| |done].
    constructor; [|done]. by apply plain_part_call.
  - change (lit "spektral." ++ sub ++ lit "." ++ p3)
      with (lit "spektral" ++ "."%char :: (sub ++ "."%char :: p3)).
    intros [H|H]%occurs_sep; [| |solve_lit|done].
    + by apply contains_false in H.
    + apply occurs_sep in H as [H|H]; [done|done|solve_lit|done].
  - apply not_occurs_call; [done|solve_lit|solve_lit|done].
Qed.

(** [def __init__(self, channels, activation=None)] *)
Definition gcn_init : callable :=
  module_function (lit "spektral.layers.convolutional.gcn_conv") (lit "__init__")
    (method_spec [lit "self"; lit "channels"; lit "activation"] (Some [VOther (lit "None")])).

Definition gcn_class : class :=
  {| cls_ref := 0; cls_module := lit "spektral.layers.convolutional.gcn_conv";
     cls_name := lit "GCNConv"; cls_doc := None; cls_init := Some gcn_init;
     cls_source_line := Ok 1%nat; cls_routines := []; cls_attrs := [] |}.

Lemma get_class_signature_deep_module_witness :
  get_class_signature gcn_class
  = Ok (lit "spektral.layers.GCNConv(channels, activation=None)").
Proof.
  apply (get_class_signature_deep_module gcn_class gcn_init
           (SArg (method_spec [lit "self"; lit "channels"; lit "activation"]
                    (Some [VOther (lit "None")])))
           (lit "spektral") (lit "layers") (lit "convolutional") (lit "gcn_conv")
           (lit "self") [lit "channels"] [lit "activation"] [VOther (lit "None")]);
    try reflexivity.
  - by left.
  - solve_lit.
  - split; [solve_lit|done].
  - split; [solve_lit|done].
  - split; [solve_lit|done].
  - by apply contains_false.
  - solve_lit.
  - by apply contains_false.
Defined.
